(** * cd_project.py: tokenizer, parser, IR generator and C++ generator

    A shallow embedding of the four translation stages of
    [src/cd_project.py] and the properties its specification states
    about them.

    Source text is a [string]; its 8-bit characters are read as the code
    points U+0000..U+00FF, and the character classes of the regular
    expressions ([\w], [\d], [.]) are the ones Python's [re] module uses
    for [str] patterns on that range. *)

From Stdlib Require Import Bool Arith List Ascii String Lia.
Import ListNotations.

Local Open Scope list_scope.
Local Open Scope string_scope.

(** ** Characters *)

Definition dquote : ascii := "034"%char.
Definition newline : ascii := "010"%char.
Definition tab : ascii := "009"%char.
Definition space : ascii := " "%char.

(** A one-character string, and the two that cannot be written inline. *)
Definition str1 (c : ascii) : string := String c EmptyString.
Definition q : string := str1 dquote.
Definition nl : string := str1 newline.

Definition ord (c : ascii) : nat := nat_of_ascii c.

Definition in_range (lo hi : nat) (c : ascii) : bool :=
  ((lo <=? ord c) && (ord c <=? hi))%nat.

(** [\d] *)
Definition is_digit (c : ascii) : bool := in_range 48 57 c.

(** [[A-Za-z_]] *)
Definition is_id_start (c : ascii) : bool :=
  in_range 65 90 c || in_range 97 122 c || (ord c =? 95)%nat.

(** [\w]: letters, digits and the underscore; above U+007F the alphabetic
    and numeric code points of Latin-1. *)
Definition is_word (c : ascii) : bool :=
  is_id_start c || is_digit c
  || (ord c =? 170)%nat || in_range 178 179 c || (ord c =? 181)%nat
  || in_range 185 186 c || in_range 188 190 c
  || in_range 192 214 c || in_range 216 246 c || in_range 248 255 c.

(** [[ \t]] *)
Definition is_blank (c : ascii) : bool :=
  Ascii.eqb c space || Ascii.eqb c tab.

(** [l.append(x)] *)
Definition list_append {A : Type} (l : list A) (x : A) : list A := (l ++ [x])%list.

(** ** Tokenizer *)

(** The group names of [token_spec]; a token's kind is one of them. *)
Inductive kind : Type :=
  | DEF | PRINT | STRING | NUMBER | ASSIGN | LPAREN | RPAREN
  | COLON | COMMA | PLUS | ID | NEWLINE | SKIP | MISMATCH.

Definition kind_eq_dec (a b : kind) : {a = b} + {a <> b}.
Proof. decide equality. Defined.

Definition kind_eqb (a b : kind) : bool :=
  if kind_eq_dec a b then true else false.

Definition token : Type := kind * string.

(** A pattern is tried at a scan position: [prev] is the character just
    before the position (none at the start of the text), the [string] is
    the text from the position on.  A match returns the matched text and
    what follows it. *)
Definition pattern : Type := option ascii -> string -> option (string * string).

Definition last_char (s : string) (dflt : option ascii) : option ascii :=
  (fix go (s : string) (acc : option ascii) : option ascii :=
     match s with
     | EmptyString => acc
     | String c t => go t (Some c)
     end) s dflt.

(** [\b]: exactly one of the two neighbouring characters is a word
    character; the ends of the text count as non-word. *)
Definition word_before (prev : option ascii) : bool :=
  match prev with Some c => is_word c | None => false end.

Definition word_at (s : string) : bool :=
  match s with String c _ => is_word c | EmptyString => false end.

Definition boundary (prev : option ascii) (s : string) : bool :=
  xorb (word_before prev) (word_at s).

Fixpoint strip_prefix (p s : string) : option string :=
  match p with
  | EmptyString => Some s
  | String a p' =>
      match s with
      | String b s' => if Ascii.eqb a b then strip_prefix p' s' else None
      | EmptyString => None
      end
  end.

(** The longest run of characters satisfying [f], and the rest. *)
Fixpoint span (f : ascii -> bool) (s : string) : string * string :=
  match s with
  | String c t =>
      if f c then let (run, rest) := span f t in (String c run, rest)
      else (EmptyString, s)
  | EmptyString => (EmptyString, EmptyString)
  end.

(** [\bkw\b] *)
Definition p_keyword (kw : string) : pattern := fun prev s =>
  if boundary prev s then
    match strip_prefix kw s with
    | Some rest => if boundary (last_char kw prev) rest then Some (kw, rest) else None
    | None => None
    end
  else None.

(** The STRING pattern: a quote, the run of characters up to the next
    quote (newlines included), and that quote.  Without a closing quote
    no shorter run can match either. *)
Definition p_string : pattern := fun _ s =>
  match s with
  | String c t =>
      if Ascii.eqb c dquote then
        let (body, rest) := span (fun x => negb (Ascii.eqb x dquote)) t in
        match rest with
        | String _ rest' => Some (q ++ body ++ q, rest')
        | EmptyString => None
        end
      else None
  | EmptyString => None
  end.

(** [c+] for a character class [c] *)
Definition p_plus (f : ascii -> bool) : pattern := fun _ s =>
  match span f s with
  | (EmptyString, _) => None
  | (run, rest) => Some (run, rest)
  end.

(** a single character of a class *)
Definition p_char (f : ascii -> bool) : pattern := fun _ s =>
  match s with
  | String c t => if f c then Some (str1 c, t) else None
  | EmptyString => None
  end.

Definition p_lit (c : ascii) : pattern := p_char (Ascii.eqb c).

(** [[A-Za-z_]\w*] *)
Definition p_id : pattern := fun _ s =>
  match s with
  | String c t =>
      if is_id_start c then
        let (run, rest) := span is_word t in Some (String c run, rest)
      else None
  | EmptyString => None
  end.

Definition token_spec : list (kind * pattern) :=
  [ (DEF,      p_keyword "def");
    (PRINT,    p_keyword "print");
    (STRING,   p_string);
    (NUMBER,   p_plus is_digit);
    (ASSIGN,   p_lit "="%char);
    (LPAREN,   p_lit "("%char);
    (RPAREN,   p_lit ")"%char);
    (COLON,    p_lit ":"%char);
    (COMMA,    p_lit ","%char);
    (PLUS,     p_lit "+"%char);
    (ID,       p_id);
    (NEWLINE,  p_lit newline);
    (SKIP,     p_plus is_blank);
    (MISMATCH, p_char (fun c => negb (Ascii.eqb c newline))) ].

(** The alternation of the named groups: the first alternative, in the
    order of the list, that matches at the position; [lastgroup] is its
    name. *)
Fixpoint alternation (spec : list (kind * pattern))
    (prev : option ascii) (s : string) : option (kind * string * string) :=
  match spec with
  | [] => None
  | (k, p) :: spec' =>
      match p prev s with
      | Some (v, rest) => Some (k, v, rest)
      | None => alternation spec' prev s
      end
  end.

Definition tok_regex : option ascii -> string -> option (kind * string * string) :=
  alternation token_spec.

(** [re.finditer(tok_regex, code)]: the successive matches, as pairs
    ([mo.lastgroup], [mo.group()]).  A position where nothing matches is
    skipped by one character, as a regex search does.  The fuel bounds
    the number of positions tried. *)
Fixpoint finditer_from (fuel : nat) (prev : option ascii) (s : string)
    : list (kind * string) :=
  match fuel with
  | O => []
  | S fuel' =>
      match s with
      | EmptyString => []
      | String c t =>
          match tok_regex prev s with
          | Some (k, v, rest) => (k, v) :: finditer_from fuel' (last_char v prev) rest
          | None => finditer_from fuel' (Some c) t
          end
      end
  end.

Definition finditer (code : string) : list (kind * string) :=
  finditer_from (String.length code) None code.

(** The exceptions the stages raise.  [RuntimeError] carries its message.
    The message of the first [SyntaxError] interpolates the expected kind
    and the token at the cursor, or EOF past the last token: it is kept
    as these two values.  The second is the error for an unsupported
    statement.  [IndexError] is what indexing a list out of range
    raises. *)
Inductive exn : Type :=
  | RuntimeError (msg : string)
  | SyntaxError_expected (expected : kind) (got : option token)
  | SyntaxError_unsupported
  | IndexError.

Inductive result (A : Type) : Type :=
  | Ok (a : A)
  | Raise (e : exn).
Arguments Ok {A} a.
Arguments Raise {A} e.

Definition unexpected_character (value : string) : exn :=
  RuntimeError ("Unexpected character: " ++ value).

(** The body of the [for mo in re.finditer(...)] loop over the matches
    still to come, [tokens] being the list built so far. *)
Fixpoint tokenize_loop (matches : list (kind * string)) (tokens : list token)
    : result (list token) :=
  match matches with
  | [] => Ok tokens
  | (k, value) :: matches' =>
      match k with
      | SKIP | NEWLINE => tokenize_loop matches' tokens
      | MISMATCH => Raise (unexpected_character value)
      | _ => tokenize_loop matches' (list_append tokens (k, value))
      end
  end.

Definition tokenize (code : string) : result (list token) :=
  tokenize_loop (finditer code) [].

(** ** Parser *)

(** The dictionaries the parser builds, by their type entry: a print
    statement, a function and a call. *)
Inductive stmt : Type :=
  | Print (left right : string).

Inductive node : Type :=
  | Function (name param : string) (body : list stmt)
  | Call (name arg : string).

(** A parsing step reads the token list and the cursor [i]; it returns a
    value with the new cursor, or raises. *)
Definition parser (A : Type) : Type := nat -> result (A * nat).

Definition ret {A : Type} (a : A) : parser A := fun i => Ok (a, i).

Definition bind {A B : Type} (m : parser A) (f : A -> parser B) : parser B :=
  fun i =>
    match m i with
    | Ok (a, i') => f a i'
    | Raise e => Raise e
    end.

Notation "x <- m ;; f" := (bind m (fun x => f))
  (at level 61, m at next level, right associativity).
Notation "m ;;; f" := (bind m (fun _ => f))
  (at level 61, right associativity).

Section Parser.

Variable tokens : list token.

(** [match(expected_type)] *)
Definition match_ (expected_type : kind) : parser string := fun i =>
  match nth_error tokens i with
  | Some (k, val) =>
      if kind_eqb k expected_type then Ok (val, S i)
      else Raise (SyntaxError_expected expected_type (Some (k, val)))
  | None => Raise (SyntaxError_expected expected_type None)
  end.

(** [tokens[i][0]], which raises when [i] is past the last token *)
Definition kind_at_cursor : parser kind := fun i =>
  match nth_error tokens i with
  | Some (k, _) => Ok (k, i)
  | None => Raise IndexError
  end.

Definition print_body : parser (list stmt) :=
  match_ PRINT ;;;
  match_ LPAREN ;;;
  left_ <- match_ STRING ;;
  match_ PLUS ;;;
  right_ <- match_ ID ;;
  match_ RPAREN ;;;
  ret [Print left_ right_].

Definition function_def : parser node :=
  match_ DEF ;;;
  func_name <- match_ ID ;;
  match_ LPAREN ;;;
  param <- match_ ID ;;
  match_ RPAREN ;;;
  match_ COLON ;;;
  k <- kind_at_cursor ;;
  body <- (if kind_eqb k PRINT then print_body else ret []) ;;
  ret (Function func_name param body).

Definition call_statement : parser node :=
  func_name <- match_ ID ;;
  match_ LPAREN ;;;
  arg <- match_ STRING ;;
  match_ RPAREN ;;;
  ret (Call func_name arg).

(** [i + 1 < len(tokens) and tokens[i+1][0] == 'LPAREN'] *)
Definition lparen_follows (i : nat) : bool :=
  match nth_error tokens (i + 1) with
  | Some (k, _) => kind_eqb k LPAREN
  | None => false
  end.

(** One turn of the [while] loop, entered with [i < len(tokens)]. *)
Definition statement : parser node := fun i =>
  (k <- kind_at_cursor ;;
   if kind_eqb k DEF then function_def
   else if kind_eqb k ID && lparen_follows i then call_statement
   else fun _ => Raise SyntaxError_unsupported) i.

(** The [while i < len(tokens)] loop; [None] when the fuel runs out. *)
Fixpoint parse_loop (fuel : nat) (i : nat) (ast : list node)
    : option (result (list node)) :=
  match fuel with
  | O => None
  | S fuel' =>
      if (i <? List.length tokens)%nat then
        match statement i with
        | Ok (n, i') => parse_loop fuel' i' (list_append ast n)
        | Raise e => Some (Raise e)
        end
      else Some (Ok ast)
  end.

End Parser.

Definition parse_tokens (tokens : list token) : option (result (list node)) :=
  parse_loop tokens (S (List.length tokens)) 0 [].

(** ** Intermediate code generator *)

(** ['\n'.join(lines)] *)
Definition join_lines (lines : list string) : string := String.concat nl lines.

Definition ir_stmt (ir_lines : list string) (s : stmt) : list string :=
  match s with
  | Print left_ right_ =>
      let temp_var := "t1" in
      let ir_lines := list_append ir_lines (temp_var ++ " = " ++ left_ ++ " + " ++ right_) in
      list_append ir_lines ("print " ++ temp_var)
  end.

Definition ir_node (ir_lines : list string) (n : node) : list string :=
  match n with
  | Function name param body =>
      let ir_lines := list_append ir_lines ("func " ++ name ++ "(" ++ param ++ ")") in
      let ir_lines := fold_left ir_stmt body ir_lines in
      list_append ir_lines "endfunc"
  | Call name arg =>
      list_append ir_lines ("call " ++ name ++ "(" ++ arg ++ ")")
  end.

Definition ir_lines_of (ast_list : list node) : list string :=
  fold_left ir_node ast_list [].

Definition generate_ir (ast_list : list node) : string :=
  join_lines (ir_lines_of ast_list).

(** ** C++ code generator *)

Definition preamble : list string :=
  [ "#include <iostream>"; "#include <string>"; "using namespace std;"; "" ].

Definition main_open : string := nl ++ "int main() {".
Definition main_close : list string := [ "    return 0;"; "}" ].

Definition cpp_stmt (cpp_lines : list string) (s : stmt) : list string :=
  match s with
  | Print left_ right_ =>
      list_append cpp_lines ("    cout << " ++ left_ ++ " + " ++ right_ ++ " << endl;")
  end.

(** The loop state: the lines so far and the flag [main_added]. *)
Definition cpp_node (st : list string * bool) (n : node) : list string * bool :=
  let (cpp_lines, main_added) := st in
  match n with
  | Function name param body =>
      let cpp_lines := list_append cpp_lines ("void " ++ name ++ "(string " ++ param ++ ") {") in
      let cpp_lines := fold_left cpp_stmt body cpp_lines in
      (list_append cpp_lines "}", main_added)
  | Call name arg =>
      let (cpp_lines, main_added) :=
        if negb main_added then (list_append cpp_lines main_open, true)
        else (cpp_lines, main_added) in
      (list_append cpp_lines ("    " ++ name ++ "(" ++ arg ++ ");"), main_added)
  end.

Definition cpp_lines_of (ast_list : list node) : list string :=
  let (cpp_lines, main_added) := fold_left cpp_node ast_list (preamble, false) in
  if main_added then (cpp_lines ++ main_close)%list else cpp_lines.

Definition generate_cpp (ast_list : list node) : string :=
  join_lines (cpp_lines_of ast_list).

(** ** The translation request *)

(** [translate_code] without the widgets: the four artefacts, or the
    exception the [except] clause reports. *)
Definition translate_code (input_code : string)
    : option (result (list token * list node * string * string)) :=
  match tokenize input_code with
  | Raise e => Some (Raise e)
  | Ok tokens =>
      match parse_tokens tokens with
      | None => None
      | Some (Raise e) => Some (Raise e)
      | Some (Ok ast) => Some (Ok (tokens, ast, generate_ir ast, generate_cpp ast))
      end
  end.

Definition src1 : string :=
  "def greet(name):" ++ nl ++ "    print(" ++ q ++ "Hello " ++ q ++ " + name)" ++ nl
  ++ "greet(" ++ q ++ "World" ++ q ++ ")".

(** ** Notions used to state the properties *)

(** The matches that become tokens. *)
Definition is_token_kind (k : kind) : bool :=
  match k with
  | SKIP | NEWLINE | MISMATCH => false
  | _ => true
  end.

(** A character the tokenizer discards. *)
Definition is_discarded (c : ascii) : bool :=
  is_blank c || Ascii.eqb c newline.

Fixpoint all_chars (f : ascii -> bool) (s : string) : bool :=
  match s with
  | EmptyString => true
  | String c t => f c && all_chars f t
  end.

(** [Covers code tokens]: the text [code] is the token texts, in order,
    with discarded characters between them and nothing else. *)
Inductive Covers : string -> list token -> Prop :=
  | Covers_end : Covers "" []
  | Covers_discard c s toks :
      is_discarded c = true -> Covers s toks -> Covers (String c s) toks
  | Covers_token k v s toks :
      v <> "" -> Covers s toks -> Covers (v ++ s) ((k, v) :: toks).

(** No pattern of [token_spec] other than the catch-all matches at the
    position. *)
Definition is_none {A : Type} (o : option A) : bool :=
  match o with Some _ => false | None => true end.

Definition no_pattern_matches (prev : option ascii) (s : string) : bool :=
  forallb (fun kp : kind * pattern =>
             let (k, p) := kp in kind_eqb k MISMATCH || is_none (p prev s))
          token_spec.

(** The scan position after [n] matches, none of them a mismatch: the
    character before it and the text from it on. *)
Fixpoint scan_steps (n : nat) (prev : option ascii) (s : string)
    : option (option ascii * string) :=
  match n with
  | O => Some (prev, s)
  | S n' =>
      match s with
      | EmptyString => None
      | String _ _ =>
          match tok_regex prev s with
          | Some (k, v, rest) =>
              if kind_eqb k MISMATCH then None
              else scan_steps n' (last_char v prev) rest
          | None => None
          end
      end
  end.

Definition is_syntax_error (e : exn) : bool :=
  match e with
  | SyntaxError_expected _ _ | SyntaxError_unsupported => true
  | _ => false
  end.

(** The kinds the lexer produces and no grammar rule consumes. *)
Definition never_parsed (k : kind) : bool :=
  match k with
  | NUMBER | ASSIGN | COMMA => true
  | _ => false
  end.

(** [triple pre m post err]: run from a cursor satisfying [pre], the step
    [m] returns a value and a cursor satisfying [post], or raises an
    exception satisfying [err]. *)
Definition triple {A : Type} (pre : nat -> Prop) (m : parser A)
    (post : A -> nat -> Prop) (err : exn -> Prop) : Prop :=
  forall i, pre i ->
    match m i with
    | Ok (a, i') => post a i'
    | Raise e => err e
    end.

(** The lines each node accounts for, as the specification lists them. *)
Definition is_call (n : node) : bool :=
  match n with Call _ _ => true | Function _ _ _ => false end.

Definition has_call (nodes : list node) : bool := existsb is_call nodes.

Definition ir_print_lines (s : stmt) : list string :=
  match s with
  | Print left_ right_ => ["t1 = " ++ left_ ++ " + " ++ right_; "print t1"]
  end.

Definition ir_node_lines (n : node) : list string :=
  match n with
  | Function name param body =>
      ("func " ++ name ++ "(" ++ param ++ ")")
        :: (flat_map ir_print_lines body ++ ["endfunc"])%list
  | Call name arg => ["call " ++ name ++ "(" ++ arg ++ ")"]
  end.

Definition cpp_print_line (s : stmt) : string :=
  match s with
  | Print left_ right_ => "    cout << " ++ left_ ++ " + " ++ right_ ++ " << endl;"
  end.

Definition cpp_function_lines (name param : string) (body : list stmt)
    : list string :=
  ("void " ++ name ++ "(string " ++ param ++ ") {")
    :: (map cpp_print_line body ++ ["}"])%list.

Definition cpp_call_line (name arg : string) : string :=
  "    " ++ name ++ "(" ++ arg ++ ");".

(** The lines of one node, [main_open] coming with the first call. *)
Definition cpp_node_lines (main_added : bool) (n : node) : list string :=
  match n with
  | Function name param body => cpp_function_lines name param body
  | Call name arg =>
      ((if main_added then [] else [main_open]) ++ [cpp_call_line name arg])%list
  end.

(** The lines of a run of nodes, in the order of the nodes. *)
Fixpoint emitted (main_added : bool) (nodes : list node) : list string :=
  match nodes with
  | [] => []
  | n :: nodes' =>
      (cpp_node_lines main_added n
         ++ emitted (main_added || is_call n) nodes')%list
  end.

Definition function_fragment (n : node) : list string :=
  match n with
  | Function name param body => cpp_function_lines name param body
  | Call _ _ => []
  end.

(** An identifier of the source language: a name the ID pattern matches
    whole and neither keyword pattern does. *)
Definition is_identifier (x : string) : bool :=
  match x with
  | String c t => is_id_start c && all_chars is_word t
  | EmptyString => false
  end
  && negb (String.eqb x "def") && negb (String.eqb x "print").

(** A string literal with the given text between its quotes. *)
Definition literal (body : string) : string := q ++ body ++ q.

Definition is_literal_body (body : string) : bool :=
  all_chars (fun x => negb (Ascii.eqb x dquote)) body.

(** The text of a function definition with a print statement, laid out
    as in the reference program. *)
Definition function_source (name param body ref : string) : string :=
  "def " ++ name ++ "(" ++ param ++ "):" ++ nl
  ++ "    print(" ++ literal body ++ " + " ++ ref ++ ")".

Definition function_tokens (name param body ref : string) : list token :=
  [ (DEF, "def"); (ID, name); (LPAREN, "("); (ID, param); (RPAREN, ")");
    (COLON, ":"); (PRINT, "print"); (LPAREN, "("); (STRING, literal body);
    (PLUS, "+"); (ID, ref); (RPAREN, ")") ].

Definition starts_with (f : ascii -> bool) (s : string) : bool :=
  match s with String c _ => f c | EmptyString => false end.

(** The texts of the concrete scenarios ([src1] is the reference
    program above). *)
Definition src3 : string :=
  "def f(x):" ++ nl ++ "    print(" ++ q ++ "a" ++ q ++ " + x) $".

Definition src4 : string :=
  "def f(x) print(" ++ q ++ "a" ++ q ++ "+x)".

Definition tokens1 : list token :=
  [ (DEF, "def"); (ID, "greet"); (LPAREN, "("); (ID, "name"); (RPAREN, ")");
    (COLON, ":"); (PRINT, "print"); (LPAREN, "(");
    (STRING, literal "Hello "); (PLUS, "+"); (ID, "name"); (RPAREN, ")");
    (ID, "greet"); (LPAREN, "("); (STRING, literal "World"); (RPAREN, ")") ].

Definition ast1 : list node :=
  [ Function "greet" "name" [Print (literal "Hello ") "name"];
    Call "greet" (literal "World") ].

Definition tokens4 : list token :=
  [ (DEF, "def"); (ID, "f"); (LPAREN, "("); (ID, "x"); (RPAREN, ")");
    (PRINT, "print"); (LPAREN, "("); (STRING, literal "a"); (PLUS, "+");
    (ID, "x"); (RPAREN, ")") ].

(** A function header, up to and including its colon. *)
Definition header_tokens (name param : string) : list token :=
  [ (DEF, "def"); (ID, name); (LPAREN, "("); (ID, param); (RPAREN, ")");
    (COLON, ":") ].

(** What a reported mismatch carries: the actual token at some cursor
    position (none past the end), which is not of the expected kind. *)
Definition reports_actual_token (tokens : list token) (e : exn) : Prop :=
  match e with
  | SyntaxError_expected expected got =>
      exists i, got = nth_error tokens i /\
                forall v, got <> Some (expected, v)
  | _ => True
  end.

Definition map_result {A B : Type} (f : A -> B) (r : result A) : result B :=
  match r with Ok a => Ok (f a) | Raise e => Raise e end.

(** The matches from a position on, with all the fuel they need. *)
Definition matches_from (prev : option ascii) (s : string) : list (kind * string) :=
  finditer_from (String.length s) prev s.

(** A stray symbol matches no pattern wherever it stands. *)
Definition is_stray (c : ascii) : bool :=
  negb (is_word c) && negb (is_discarded c)
  && negb (existsb (Ascii.eqb c) [dquote; "="; "("; ")"; ":"; ","; "+"]%char).

(** The texts of a list of matches, put end to end. *)
Definition matched_text (ms : list (kind * string)) : string :=
  fold_right (fun m acc => snd m ++ acc) "" ms.

(** Assertions on cursors and exceptions used with [triple]. *)
Definition any_cursor (i : nat) : Prop := True.
Definition any_exn (e : exn) : Prop := True.
Definition at_or_before (j i : nat) : Prop := i <= j.
Definition raises_syntax (e : exn) : Prop := is_syntax_error e = true.

(** A name: what the ID pattern matches, keywords included. *)
Definition is_name (v : string) : bool :=
  match v with
  | String c t => is_id_start c && all_chars is_word t
  | EmptyString => false
  end.

(** The text a token of each kind can carry. *)
Definition well_formed (t : token) : Prop :=
  let (k, v) := t in
  match k with
  | DEF => v = "def"
  | PRINT => v = "print"
  | STRING => exists body, is_literal_body body = true /\ v = literal body
  | NUMBER => v <> "" /\ all_chars is_digit v = true
  | ASSIGN => v = "="
  | LPAREN => v = "("
  | RPAREN => v = ")"
  | COLON => v = ":"
  | COMMA => v = ","
  | PLUS => v = "+"
  | ID => is_name v = true
  | NEWLINE | SKIP | MISMATCH => False
  end.

(** The result of a pattern with [tail] added to what follows the match. *)
Definition followed_by (tail : string) (o : option (string * string))
    : option (string * string) :=
  match o with
  | Some (v, rest) => Some (v, rest ++ tail)
  | None => None
  end.

(** A pattern that matches the same text whether or not a newline ends
    the input. *)
Definition newline_stable (p : pattern) : Prop :=
  forall prev c t,
    p prev (String c t ++ nl) = followed_by nl (p prev (String c t)).

(** The tokens that spell a node, with the fixed texts of keywords and
    punctuation. *)
Definition stmt_tokens (s : stmt) : list token :=
  match s with
  | Print left_ right_ =>
      [ (PRINT, "print"); (LPAREN, "("); (STRING, left_); (PLUS, "+");
        (ID, right_); (RPAREN, ")") ]
  end.

Definition node_tokens (n : node) : list token :=
  match n with
  | Function name param body =>
      (header_tokens name param ++ flat_map stmt_tokens body)%list
  | Call name arg =>
      [ (ID, name); (LPAREN, "("); (STRING, arg); (RPAREN, ")") ]
  end.

Definition program_tokens (ast : list node) : list token :=
  flat_map node_tokens ast.

(** A token as the parser reads it: the text counts only where [match]
    returns it to the caller, for identifiers and strings; the text of a
    keyword or punctuation token is dropped. *)
Definition significant (t : token) : token :=
  let (k, v) := t in
  match k with
  | DEF | PRINT | LPAREN | RPAREN | COLON | PLUS => (k, "")
  | _ => (k, v)
  end.

(** What the parser builds: at most one statement in a body. *)
Definition body_ok (n : node) : Prop :=
  match n with
  | Function _ _ body => List.length body <= 1
  | Call _ _ => True
  end.

(** A program the parser can read back to its end: its last node is not
    a function with an empty body. *)
Definition ends_closed (ast : list node) : Prop :=
  match last ast (Call "" "") with
  | Function _ _ [] => False
  | _ => True
  end.

(** The cursor of a result moved by [n]. *)
Definition shift {A : Type} (n : nat) (r : result (A * nat)) : result (A * nat) :=
  match r with
  | Ok (a, j) => Ok (a, n + j)
  | Raise e => Raise e
  end.

Definition header_kinds : list kind := [DEF; ID; LPAREN; ID; RPAREN; COLON].

(** The texts the tokenizer gives to keyword and punctuation tokens. *)
Definition fixed_text (t : token) : Prop :=
  let (k, v) := t in
  match k with
  | DEF => v = "def"
  | PRINT => v = "print"
  | LPAREN => v = "("
  | RPAREN => v = ")"
  | COLON => v = ":"
  | PLUS => v = "+"
  | _ => True
  end.

(** Tokens that do not start with [print]. *)
Definition no_print_head (toks : list token) : Prop :=
  match toks with
  | (PRINT, _) :: _ => False
  | _ => True
  end.

(** [extends m1 m2]: what [m1] returns, [m2] returns too. *)
Definition extends {A : Type} (m1 m2 : parser A) : Prop :=
  forall i a j, m1 i = Ok (a, j) -> m2 i = Ok (a, j).

(** The text of a call statement and its tokens. *)
Definition call_source (name body : string) : string :=
  name ++ "(" ++ literal body ++ ")".

Definition call_tokens (name body : string) : list token :=
  [ (ID, name); (LPAREN, "("); (STRING, literal body); (RPAREN, ")") ].

(** The test the loop makes on the token at the cursor: a function
    definition or a call starts there. *)
Definition starts_statement (tokens : list token) (i : nat) : bool :=
  match nth_error tokens i with
  | Some (k, _) => kind_eqb k DEF || (kind_eqb k ID && lparen_follows tokens i)
  | None => false
  end.

(** A pattern that, at a position, matches the same text when [tail] is
    added to the input. *)
Definition stable_here (tail : string) (prev : option ascii) (c : ascii)
    (t : string) (p : pattern) : Prop :=
  p prev (String c t ++ tail) = followed_by tail (p prev (String c t)).

(** The result of translating one text after another that translated. *)
Definition translated_after (ta : list token) (na : list node)
    (rb : option (result (list token * list node * string * string)))
    : option (result (list token * list node * string * string)) :=
  match rb with
  | Some (Ok (tb, nb, _, _)) =>
      Some (Ok ((ta ++ tb)%list, (na ++ nb)%list,
                generate_ir (na ++ nb), generate_cpp (na ++ nb)))
  | _ => rb
  end.

(** The text of a list of lines: the lines one after another, with a
    newline between two lines that follow each other. *)
Fixpoint newline_separated (lines : list string) : string :=
  match lines with
  | [] => ""
  | [l] => l
  | l :: rest => l ++ nl ++ newline_separated rest
  end.

(** The lines after the first lines of a text, as they continue it. *)
Definition continued_by (later : list string) : string :=
  match later with
  | [] => ""
  | _ :: _ => nl ++ newline_separated later
  end.

(** The text of a function definition with a print statement in any
    layout: [gap i] is the run of blanks, tabs and newlines written
    before the token of rank [i], rank 0 being [def]. *)
Definition function_text (gap : nat -> string) (name param body ref : string)
    : string :=
  gap 0 ++ "def" ++ gap 1 ++ name ++ gap 2 ++ "(" ++ gap 3 ++ param
  ++ gap 4 ++ ")" ++ gap 5 ++ ":" ++ gap 6 ++ "print" ++ gap 7 ++ "("
  ++ gap 8 ++ literal body ++ gap 9 ++ "+" ++ gap 10 ++ ref
  ++ gap 11 ++ ")".

(** The gaps of the reference program, and no gap but the one after
    [def]. *)
Definition reference_gaps (i : nat) : string :=
  match i with
  | 1 | 9 | 10 => " "
  | 6 => nl ++ "    "
  | _ => ""
  end.

Definition tight_gaps (i : nat) : string :=
  match i with
  | 1 => " "
  | _ => ""
  end.

(** * Properties *)

(** ** Strings *)

Lemma append_nil_r (s : string) : s ++ "" = s.
Proof. induction s; simpl; congruence. Qed.

Lemma append_assoc (a b c : string) : (a ++ b) ++ c = a ++ (b ++ c).
Proof. induction a; simpl; congruence. Qed.

Lemma length_append (a b : string) :
  String.length (a ++ b) = String.length a + String.length b.
Proof. induction a; simpl; congruence. Qed.

Lemma last_char_cons c s d : last_char (String c s) d = last_char s (Some c).
Proof. reflexivity. Qed.

Lemma last_char_append (a b : string) (d : option ascii) :
  last_char (a ++ b) d = last_char b (last_char a d).
Proof.
  revert d; induction a as [|c a IH]; intro d; [reflexivity|].
  change (String c a ++ b) with (String c (a ++ b)).
  rewrite !last_char_cons. apply IH.
Qed.

Lemma ascii_eqb_true (a b : ascii) : Ascii.eqb a b = true -> a = b.
Proof. apply Ascii.eqb_eq. Qed.

(** ** Patterns consume a non-empty prefix of the text *)

Definition sound (p : pattern) : Prop :=
  forall prev s v rest,
    p prev s = Some (v, rest) -> s = v ++ rest /\ v <> "".

Lemma span_append f s : forall run rest,
  span f s = (run, rest) -> s = run ++ rest.
Proof.
  induction s as [|c t IH]; simpl; intros run rest H.
  - inversion H; reflexivity.
  - destruct (f c).
    + destruct (span f t) as [r1 r2]. inversion H; subst. simpl.
      f_equal. apply IH. reflexivity.
    + inversion H; reflexivity.
Qed.

Lemma span_all f s : forall run rest,
  span f s = (run, rest) -> all_chars f run = true.
Proof.
  induction s as [|c t IH]; simpl; intros run rest H.
  - inversion H; reflexivity.
  - destruct (f c) eqn:E.
    + destruct (span f t) as [r1 r2]. inversion H; subst. simpl.
      rewrite E. simpl. eapply IH. reflexivity.
    + inversion H; reflexivity.
Qed.

Lemma span_stop f s : forall run rest,
  span f s = (run, rest) ->
  match rest with String c _ => f c = false | EmptyString => True end.
Proof.
  induction s as [|c t IH]; simpl; intros run rest H.
  - inversion H; exact I.
  - destruct (f c) eqn:E.
    + destruct (span f t) as [r1 r2]. inversion H; subst.
      eapply IH. reflexivity.
    + inversion H; subst. exact E.
Qed.

(** The run is the whole of a prefix whose characters are all in the
    class, when the next character is not. *)
Lemma span_prefix f (a r : string) :
  all_chars f a = true ->
  match r with String c _ => f c = false | EmptyString => True end ->
  span f (a ++ r) = (a, r).
Proof.
  intros Ha Hr. induction a as [|c a IH]; simpl in *.
  - destruct r as [|c r]; [reflexivity|]. simpl. rewrite Hr. reflexivity.
  - apply andb_prop in Ha. destruct Ha as [Hc Ha].
    rewrite Hc, (IH Ha). reflexivity.
Qed.

Lemma strip_prefix_append p : forall s rest,
  strip_prefix p s = Some rest -> s = p ++ rest.
Proof.
  induction p as [|a p IH]; simpl; intros s rest H.
  - inversion H; reflexivity.
  - destruct s as [|b s]; [discriminate|].
    destruct (Ascii.eqb a b) eqn:E; [|discriminate].
    apply ascii_eqb_true in E. subst. f_equal. apply IH, H.
Qed.

Lemma strip_prefix_here p rest : strip_prefix p (p ++ rest) = Some rest.
Proof.
  induction p as [|a p IH]; simpl; [reflexivity|].
  rewrite Ascii.eqb_refl. exact IH.
Qed.

Lemma sound_keyword kw : kw <> "" -> sound (p_keyword kw).
Proof.
  intros Hkw prev s v rest H. unfold p_keyword in H.
  destruct (boundary prev s); [|discriminate].
  destruct (strip_prefix kw s) as [r|] eqn:E; [|discriminate].
  destruct (boundary (last_char kw prev) r); [|discriminate].
  inversion H; subst. split; [apply strip_prefix_append, E|exact Hkw].
Qed.

Lemma sound_string : sound p_string.
Proof.
  intros prev s v rest H. unfold p_string in H.
  destruct s as [|c t]; [discriminate|].
  destruct (Ascii.eqb c dquote) eqn:Ec; [|discriminate].
  destruct (span (fun x => negb (Ascii.eqb x dquote)) t) as [body r] eqn:Es.
  destruct r as [|c' r']; [discriminate|].
  inversion H; subst. split; [|discriminate].
  apply ascii_eqb_true in Ec. subst c.
  pose proof (span_stop _ _ _ _ Es) as Hstop. simpl in Hstop.
  apply negb_false_iff, ascii_eqb_true in Hstop. subst c'.
  apply span_append in Es. subst t.
  unfold q, str1. simpl. rewrite append_assoc. reflexivity.
Qed.

Lemma sound_plus f : sound (p_plus f).
Proof.
  intros prev s v rest H. unfold p_plus in H.
  destruct (span f s) as [run r] eqn:Es.
  destruct run as [|c run]; [discriminate|].
  inversion H; subst. split; [eapply span_append, Es|discriminate].
Qed.

Lemma sound_char f : sound (p_char f).
Proof.
  intros prev s v rest H. unfold p_char in H.
  destruct s as [|c t]; [discriminate|].
  destruct (f c); [|discriminate].
  inversion H; subst. split; [reflexivity|discriminate].
Qed.

Lemma sound_id : sound p_id.
Proof.
  intros prev s v rest H. unfold p_id in H.
  destruct s as [|c t]; [discriminate|].
  destruct (is_id_start c); [|discriminate].
  destruct (span is_word t) as [run r] eqn:Es.
  inversion H; subst. split; [|discriminate].
  simpl. f_equal. eapply span_append, Es.
Qed.

Lemma sound_token_spec : Forall (fun kp => sound (snd kp)) token_spec.
Proof.
  unfold token_spec.
  repeat (apply Forall_cons; [simpl;
    first [ apply sound_keyword; discriminate | apply sound_string
          | apply sound_plus | apply sound_char | apply sound_id ] |]).
  apply Forall_nil.
Qed.

(** What the alternation returns was returned by one of its patterns, and
    every pattern listed before that one failed. *)
Lemma alternation_first spec prev s k v rest :
  alternation spec prev s = Some (k, v, rest) ->
  exists l1 p l2,
    spec = (l1 ++ (k, p) :: l2)%list /\ p prev s = Some (v, rest) /\
    Forall (fun kp => snd kp prev s = None) l1.
Proof.
  induction spec as [|[k0 p0] spec IH]; simpl; intro H; [discriminate|].
  destruct (p0 prev s) as [[v0 r0]|] eqn:E.
  - inversion H; subst. exists [], p0, spec. auto.
  - destruct (IH H) as (l1 & p & l2 & -> & Hp & Hl).
    exists ((k0, p0) :: l1), p, l2. simpl. auto.
Qed.

Lemma alternation_sound spec prev s k v rest :
  Forall (fun kp => sound (snd kp)) spec ->
  alternation spec prev s = Some (k, v, rest) ->
  s = v ++ rest /\ v <> "".
Proof.
  intros Hs H. apply alternation_first in H.
  destruct H as (l1 & p & l2 & -> & Hp & _).
  apply Forall_app in Hs. destruct Hs as [_ Hs].
  inversion Hs; subst. eapply H1. exact Hp.
Qed.

Lemma tok_regex_sound prev s k v rest :
  tok_regex prev s = Some (k, v, rest) -> s = v ++ rest /\ v <> "".
Proof. apply alternation_sound, sound_token_spec. Qed.

(** The last two alternatives accept any character: at every position of
    the text there is a match. *)
Lemma newline_or_mismatch prev c t :
  p_lit newline prev (String c t) = None ->
  p_char (fun x => negb (Ascii.eqb x newline)) prev (String c t) = None ->
  False.
Proof.
  unfold p_lit, p_char. intros H1 H2.
  destruct (Ascii.eqb newline c) eqn:E; [discriminate|].
  rewrite Ascii.eqb_sym, E in H2. discriminate.
Qed.

Lemma tok_regex_total prev c t :
  exists k v rest, tok_regex prev (String c t) = Some (k, v, rest).
Proof.
  cbv beta iota delta [tok_regex token_spec alternation].
  repeat match goal with
  | |- context [match ?p prev (String c t) with _ => _ end] =>
      destruct (p prev (String c t)) as [[? ?]|] eqn:?; [eauto|]
  end.
  exfalso. eapply newline_or_mismatch; eassumption.
Qed.

(** ** The matches of [finditer] *)

Ltac split_alternation prev s :=
  cbv beta iota delta [tok_regex token_spec alternation];
  repeat match goal with
  | |- context [match ?p prev s with _ => _ end] =>
      destruct (p prev s) as [[? ?]|] eqn:?
  end.

Lemma no_pattern_matches_spec prev s :
  no_pattern_matches prev s = true ->
  forall k p, In (k, p) token_spec -> k <> MISMATCH -> p prev s = None.
Proof.
  unfold no_pattern_matches. rewrite forallb_forall.
  intros H k p Hin Hk. specialize (H _ Hin). simpl in H.
  unfold kind_eqb in H. destruct (kind_eq_dec k MISMATCH); [contradiction|].
  destruct (p prev s); [discriminate|reflexivity].
Qed.

Lemma tok_regex_cases prev s k v rest :
  tok_regex prev s = Some (k, v, rest) ->
  match k with
  | SKIP => p_plus is_blank prev s = Some (v, rest)
  | NEWLINE => p_lit newline prev s = Some (v, rest)
  | MISMATCH =>
      p_char (fun c => negb (Ascii.eqb c newline)) prev s = Some (v, rest)
      /\ no_pattern_matches prev s = true
  | _ => True
  end.
Proof.
  split_alternation prev s; intro H; inversion H; subst; try exact I; auto.
  split; [reflexivity|].
  cbv beta iota delta [no_pattern_matches token_spec forallb].
  repeat match goal with
  | H : ?p prev s = None |- _ => rewrite H; clear H
  end.
  reflexivity.
Qed.

Lemma tok_regex_skip prev s v rest :
  tok_regex prev s = Some (SKIP, v, rest) -> all_chars is_blank v = true.
Proof.
  intro H. apply tok_regex_cases in H. unfold p_plus in H.
  destruct (span is_blank s) as [run r] eqn:Es.
  apply span_all in Es.
  destruct run; [discriminate|]. inversion H; subst. exact Es.
Qed.

Lemma tok_regex_newline prev s v rest :
  tok_regex prev s = Some (NEWLINE, v, rest) -> v = nl.
Proof.
  intro H. apply tok_regex_cases in H. unfold p_lit, p_char in H.
  destruct s as [|c t]; [discriminate|].
  destruct (Ascii.eqb newline c) eqn:E; [|discriminate].
  apply ascii_eqb_true in E. inversion H; subst. reflexivity.
Qed.

Lemma tok_regex_mismatch prev s v rest :
  tok_regex prev s = Some (MISMATCH, v, rest) ->
  exists c, v = str1 c /\ s = String c rest /\ no_pattern_matches prev s = true.
Proof.
  intro H. apply tok_regex_cases in H. destruct H as [H Hno].
  unfold p_char in H. destruct s as [|c t]; [discriminate|].
  destruct (negb (Ascii.eqb c newline)); [|discriminate].
  inversion H; subst. eauto.
Qed.

(** Conversely, where no other pattern matches, a character that is not
    a newline is a mismatch. *)
Lemma tok_regex_no_pattern prev c t :
  no_pattern_matches prev (String c t) = true ->
  tok_regex prev (String c t) = Some (MISMATCH, str1 c, t).
Proof.
  intro Hno. pose proof (no_pattern_matches_spec _ _ Hno) as Hno'. clear Hno.
  rename Hno' into Hno.
  split_alternation prev (String c t);
    try match goal with
    | H : ?p prev (String c t) = Some _ |- Some (?k, _, _) = _ =>
        match k with
        | MISMATCH => fail 1
        | _ => rewrite (Hno k p) in H; [discriminate|simpl; tauto|discriminate]
        end
    end.
  - unfold p_char in *. destruct (negb (Ascii.eqb c newline)); [|discriminate].
    congruence.
  - exfalso. eapply newline_or_mismatch; eassumption.
Qed.

(** Fuel beyond the length of the text changes nothing. *)
Lemma finditer_from_fuel : forall f1 f2 prev s,
  String.length s <= f1 -> String.length s <= f2 ->
  finditer_from f1 prev s = finditer_from f2 prev s.
Proof.
  induction f1 as [|f1 IH]; intros f2 prev s H1 H2.
  - destruct s; [|simpl in H1; lia]. destruct f2; reflexivity.
  - destruct s as [|c t]; [destruct f2; reflexivity|].
    destruct f2 as [|f2]; [simpl in H2; lia|].
    simpl finditer_from.
    destruct (tok_regex prev (String c t)) as [[[k v] rest]|] eqn:E.
    + apply tok_regex_sound in E. destruct E as [E Hv].
      assert (String.length rest < String.length (String c t)).
      { rewrite E, length_append. destruct v; [congruence|simpl; lia]. }
      change (String.length (String c t)) with (S (String.length t)) in *.
      f_equal. apply IH; lia.
    + simpl in H1, H2. apply IH; lia.
Qed.

Lemma finditer_matches_from code : finditer code = matches_from None code.
Proof. reflexivity. Qed.

Lemma matches_from_nil prev : matches_from prev "" = [].
Proof. reflexivity. Qed.

Lemma matches_from_cons prev s k v rest :
  tok_regex prev s = Some (k, v, rest) ->
  matches_from prev s = (k, v) :: matches_from (last_char v prev) rest.
Proof.
  intro E. unfold matches_from.
  destruct s as [|c t].
  - apply tok_regex_sound in E. destruct E as [E Hv].
    destruct v; [congruence|discriminate].
  - simpl finditer_from. rewrite E. f_equal.
    apply tok_regex_sound in E. destruct E as [E Hv].
    apply finditer_from_fuel; [|lia].
    assert (String.length (String c t) = String.length (v ++ rest)) by congruence.
    rewrite length_append in H. destruct v; [congruence|]. simpl in H. lia.
Qed.

(** Induction along the scan: from a position to the position after its
    match. *)
Lemma scan_ind (P : option ascii -> string -> Prop) :
  (forall prev, P prev "") ->
  (forall prev c t k v rest,
     tok_regex prev (String c t) = Some (k, v, rest) ->
     P (last_char v prev) rest -> P prev (String c t)) ->
  forall prev s, P prev s.
Proof.
  intros Hnil Hcons prev s.
  remember (String.length s) as n eqn:Hn.
  revert prev s Hn. induction n as [n IH] using lt_wf_ind.
  intros prev s Hn. destruct s as [|c t]; [apply Hnil|].
  destruct (tok_regex_total prev c t) as (k & v & rest & E).
  apply (Hcons _ _ _ _ _ _ E).
  apply tok_regex_sound in E. destruct E as [E Hv].
  apply (IH (String.length rest)); [|reflexivity].
  subst n. rewrite E, length_append. destruct v; [congruence|simpl; lia].
Qed.

(** The matches leave no character out: the fuel of [finditer] never
    runs short and no position is skipped. *)
Lemma matches_from_exhaustive : forall prev s,
  matched_text (matches_from prev s) = s.
Proof.
  intros prev s. pattern prev, s. apply scan_ind; clear prev s.
  - reflexivity.
  - intros prev c t k v rest E IH.
    rewrite (matches_from_cons _ _ _ _ _ E). simpl. rewrite IH.
    symmetry. apply (tok_regex_sound _ _ _ _ _ E).
Qed.

(** X3: the texts of the matches of [finditer], put end to end, are the
    whole input, on every input: each position of the scan has a match,
    so the search never skips a character. *)
Lemma finditer_exhaustive code : matched_text (finditer code) = code.
Proof. apply matches_from_exhaustive. Qed.

(** ** The loop of [tokenize] *)

(** The tokens already collected only prefix the result. *)
Lemma tokenize_loop_acc ms : forall acc,
  tokenize_loop ms acc = map_result (app acc) (tokenize_loop ms []).
Proof.
  induction ms as [|[k v] ms IH]; intro acc; simpl.
  - rewrite app_nil_r. reflexivity.
  - destruct k; try apply IH; try reflexivity;
      rewrite IH, (IH (list_append [] _)); unfold list_append;
      destruct (tokenize_loop ms []); simpl; rewrite <- ?app_assoc; reflexivity.
Qed.

Lemma tokenize_loop_cons k v ms :
  tokenize_loop ((k, v) :: ms) [] =
  match k with
  | SKIP | NEWLINE => tokenize_loop ms []
  | MISMATCH => Raise (unexpected_character v)
  | _ => map_result (cons (k, v)) (tokenize_loop ms [])
  end.
Proof.
  destruct k; try reflexivity; simpl; rewrite tokenize_loop_acc; reflexivity.
Qed.

Lemma map_result_ok {A B} (f : A -> B) r b :
  map_result f r = Ok b -> exists a, r = Ok a /\ b = f a.
Proof. destruct r; simpl; intro H; inversion H; eauto. Qed.

Lemma map_result_raise {A B} (f : A -> B) r e :
  map_result f r = Raise e <-> r = Raise e.
Proof. destruct r; simpl; split; intro H; inversion H; reflexivity. Qed.

(** ** Coverage *)

Lemma Covers_discard_run run s toks :
  all_chars is_discarded run = true -> Covers s toks -> Covers (run ++ s) toks.
Proof.
  induction run as [|c run IH]; simpl; intros H Hc; [exact Hc|].
  apply andb_prop in H. destruct H as [H1 H2].
  apply Covers_discard; auto.
Qed.

Lemma all_chars_impl (f g : ascii -> bool) s :
  (forall c, f c = true -> g c = true) ->
  all_chars f s = true -> all_chars g s = true.
Proof.
  intro Hfg. induction s as [|c s IH]; simpl; [reflexivity|].
  intro H. apply andb_prop in H. destruct H as [H1 H2].
  rewrite (Hfg _ H1), (IH H2). reflexivity.
Qed.

Lemma covers_from : forall prev s toks,
  tokenize_loop (matches_from prev s) [] = Ok toks -> Covers s toks.
Proof.
  intros prev s. pattern prev, s. apply scan_ind; clear prev s.
  - intros prev toks H. rewrite matches_from_nil in H. simpl in H.
    inversion H. constructor.
  - intros prev c t k v rest E IH toks H.
    rewrite (matches_from_cons _ _ _ _ _ E), tokenize_loop_cons in H.
    destruct (tok_regex_sound _ _ _ _ _ E) as [Es Hv]. rewrite Es.
    destruct k;
      try (apply map_result_ok in H; destruct H as (toks' & H & ->);
           apply Covers_token; [exact Hv|apply IH, H]).
    + apply tok_regex_newline in E. subst v.
      apply Covers_discard_run; [reflexivity|apply IH, H].
    + apply tok_regex_skip in E.
      apply Covers_discard_run; [|apply IH, H].
      revert E. apply all_chars_impl. intros x Hx.
      unfold is_discarded. rewrite Hx. reflexivity.
    + discriminate.
Qed.

(** Only kinds of the token enumeration reach the token list. *)
Lemma token_kinds_from : forall prev s toks,
  tokenize_loop (matches_from prev s) [] = Ok toks ->
  Forall (fun t => is_token_kind (fst t) = true) toks.
Proof.
  intros prev s. pattern prev, s. apply scan_ind; clear prev s.
  - intros prev toks H. rewrite matches_from_nil in H. inversion H. constructor.
  - intros prev c t k v rest E IH toks H.
    rewrite (matches_from_cons _ _ _ _ _ E), tokenize_loop_cons in H.
    destruct k;
      try (apply map_result_ok in H; destruct H as (toks' & H & ->);
           constructor; [reflexivity|apply IH, H]);
      try (apply IH, H).
    discriminate.
Qed.

(** ** Lexical errors *)

(** An exception raised further along the scan is the one [tokenize]
    raises. *)
Lemma scan_steps_raise n : forall prev s prev' s' e,
  scan_steps n prev s = Some (prev', s') ->
  tokenize_loop (matches_from prev' s') [] = Raise e ->
  tokenize_loop (matches_from prev s) [] = Raise e.
Proof.
  induction n as [|n IH]; simpl; intros prev s prev' s' e Hs Hr.
  - inversion Hs; subst. exact Hr.
  - destruct s as [|c t]; [discriminate|].
    destruct (tok_regex prev (String c t)) as [[[k v] rest]|] eqn:E; [|discriminate].
    destruct (kind_eqb k MISMATCH) eqn:Ek; [discriminate|].
    rewrite (matches_from_cons _ _ _ _ _ E), tokenize_loop_cons.
    specialize (IH _ _ _ _ _ Hs Hr).
    destruct k; try (apply map_result_raise; exact IH); try exact IH.
    discriminate.
Qed.

(** The scan position splits the text, and [prev] is the character
    before the position. *)
Lemma scan_steps_position n : forall prev s prev' s',
  scan_steps n prev s = Some (prev', s') ->
  exists pre, s = pre ++ s' /\ prev' = last_char pre prev.
Proof.
  induction n as [|n IH]; simpl; intros prev s prev' s' Hs.
  - inversion Hs; subst. exists "". auto.
  - destruct s as [|c t]; [discriminate|].
    destruct (tok_regex prev (String c t)) as [[[k v] rest]|] eqn:E; [|discriminate].
    destruct (kind_eqb k MISMATCH); [discriminate|].
    apply tok_regex_sound in E. destruct E as [E _].
    destruct (IH _ _ _ _ Hs) as (pre & -> & ->).
    exists (v ++ pre). rewrite E, append_assoc, last_char_append. auto.
Qed.

Lemma tokenize_raises_at prev c t :
  no_pattern_matches prev (String c t) = true ->
  tokenize_loop (matches_from prev (String c t)) [] =
  Raise (unexpected_character (str1 c)).
Proof.
  intro H. apply tok_regex_no_pattern in H.
  rewrite (matches_from_cons _ _ _ _ _ H). reflexivity.
Qed.

Ltac bool_hyps :=
  repeat match goal with
  | H : _ && _ = true |- _ => apply andb_prop in H; destruct H
  | H : _ || _ = false |- _ => apply orb_false_elim in H; destruct H
  | H : negb _ = true |- _ => apply negb_true_iff in H
  | H : negb _ = false |- _ => apply negb_false_iff in H
  end.

(** Each pattern fails on a text whose first character it excludes. *)
Lemma p_char_none f prev c t : f c = false -> p_char f prev (String c t) = None.
Proof. unfold p_char. intros ->. reflexivity. Qed.

Lemma p_lit_none a prev c t :
  Ascii.eqb c a = false -> p_lit a prev (String c t) = None.
Proof. intro H. apply p_char_none. rewrite Ascii.eqb_sym. exact H. Qed.

Lemma p_plus_none f prev c t : f c = false -> p_plus f prev (String c t) = None.
Proof. unfold p_plus. simpl. intros ->. reflexivity. Qed.

Lemma p_id_none prev c t : is_id_start c = false -> p_id prev (String c t) = None.
Proof. unfold p_id. intros ->. reflexivity. Qed.

Lemma p_string_none prev c t :
  Ascii.eqb c dquote = false -> p_string prev (String c t) = None.
Proof. unfold p_string. intros ->. reflexivity. Qed.

Lemma p_keyword_none a kw prev c t :
  Ascii.eqb a c = false -> p_keyword (String a kw) prev (String c t) = None.
Proof.
  unfold p_keyword. simpl. intros ->.
  destruct (boundary prev (String c t)); reflexivity.
Qed.

Lemma not_word_not_letter c : is_word c = false -> forall a,
  is_word a = true -> Ascii.eqb a c = false.
Proof.
  intros Hc a Ha. destruct (Ascii.eqb a c) eqn:E; [|reflexivity].
  apply ascii_eqb_true in E. congruence.
Qed.

Lemma stray_no_pattern prev c t :
  is_stray c = true -> no_pattern_matches prev (String c t) = true.
Proof.
  intro H. unfold is_stray in H. simpl existsb in H. bool_hyps.
  pose proof (not_word_not_letter c H) as Hkw.
  unfold is_word in H. unfold is_discarded, is_blank in *. bool_hyps.
  cbv beta iota delta [no_pattern_matches token_spec forallb].
  rewrite !p_keyword_none by (apply Hkw; reflexivity).
  rewrite p_string_none, !p_plus_none, !p_lit_none, p_id_none;
    try assumption; try reflexivity.
  unfold is_blank.
  repeat match goal with H : _ = false |- _ => rewrite H; clear H end.
  reflexivity.
Qed.

(** The opening quote of a literal that is never closed matches no
    pattern. *)
Lemma unterminated_no_pattern prev t :
  all_chars (fun x => negb (Ascii.eqb x dquote)) t = true ->
  no_pattern_matches prev (String dquote t) = true.
Proof.
  intro H.
  cbv beta iota delta [no_pattern_matches token_spec forallb].
  assert (Hs : p_string prev (String dquote t) = None).
  { unfold p_string. rewrite Ascii.eqb_refl.
    rewrite <- (append_nil_r t) at 1.
    rewrite (span_prefix _ t "" H I). reflexivity. }
  rewrite Hs, !p_keyword_none by reflexivity.
  reflexivity.
Qed.

(** ** Parsing steps *)

Lemma kind_eqb_eq a b : kind_eqb a b = true <-> a = b.
Proof.
  unfold kind_eqb. destruct (kind_eq_dec a b); split; congruence.
Qed.

Lemma kind_eqb_neq a b : kind_eqb a b = false <-> a <> b.
Proof.
  unfold kind_eqb. destruct (kind_eq_dec a b); split; congruence.
Qed.

Lemma match_ok tokens expected i v i' :
  match_ tokens expected i = Ok (v, i') ->
  nth_error tokens i = Some (expected, v) /\ i' = S i.
Proof.
  unfold match_. destruct (nth_error tokens i) as [[k val]|]; [|discriminate].
  destruct (kind_eqb k expected) eqn:E; [|discriminate].
  apply kind_eqb_eq in E. intro H. inversion H; subst. auto.
Qed.

Lemma match_raise tokens expected i e :
  match_ tokens expected i = Raise e ->
  e = SyntaxError_expected expected (nth_error tokens i) /\
  forall v, nth_error tokens i <> Some (expected, v).
Proof.
  unfold match_. destruct (nth_error tokens i) as [[k val]|].
  - destruct (kind_eqb k expected) eqn:E; [discriminate|].
    apply kind_eqb_neq in E. intro H. inversion H; subst.
    split; [reflexivity|]. intros v Hv. inversion Hv. contradiction.
  - intro H. inversion H. split; [reflexivity|discriminate].
Qed.

Section Triples.

Context {A B : Type}.
Variable tokens : list token.

Lemma triple_ret (a : A) (pre : nat -> Prop) post err :
  (forall i, pre i -> post a i) -> triple pre (ret a) post err.
Proof. intros H i Hi. simpl. auto. Qed.

Lemma triple_bind (m : parser A) (f : A -> parser B) pre mid post err :
  triple pre m mid err ->
  (forall a, triple (mid a) (f a) post err) ->
  triple pre (bind m f) post err.
Proof.
  intros Hm Hf i Hi. unfold bind. specialize (Hm i Hi).
  destruct (m i) as [[a i']|e]; [apply Hf, Hm|exact Hm].
Qed.

Lemma triple_weaken (m : parser A) (pre pre' : nat -> Prop)
    (post post' : A -> nat -> Prop) (err err' : exn -> Prop) :
  triple pre m post err ->
  (forall i, pre' i -> pre i) ->
  (forall a i, post a i -> post' a i) ->
  (forall e, err e -> err' e) ->
  triple pre' m post' err'.
Proof.
  intros Hm Hpre Hpost Herr i Hi. specialize (Hm i (Hpre i Hi)).
  destruct (m i) as [[a i']|e]; auto.
Qed.

End Triples.

(** ** The parser always returns or raises *)

Section Progress.

Variable tokens : list token.

Lemma match_advances expected i0 :
  triple (fun i => i0 <= i) (match_ tokens expected)
         (fun _ i' => i0 < i') any_exn.
Proof.
  intros i Hi. destruct (match_ tokens expected i) as [[v i']|e] eqn:E;
    [|exact I].
  apply match_ok in E. lia.
Qed.

Lemma match_advances' expected i0 :
  triple (fun i => i0 < i) (match_ tokens expected)
         (fun _ i' => i0 < i') any_exn.
Proof.
  eapply triple_weaken; [apply (match_advances expected i0)|..];
    cbv beta; intros; auto; lia.
Qed.

Lemma cursor_stays (pre : nat -> Prop) :
  triple pre (kind_at_cursor tokens) (fun _ i' => pre i') any_exn.
Proof.
  intros i Hi. unfold kind_at_cursor.
  destruct (nth_error tokens i) as [[k v]|]; [exact Hi|exact I].
Qed.

Ltac steps :=
  repeat first
    [ eapply triple_bind; [apply match_advances'|intros ?]
    | eapply triple_bind; [apply cursor_stays|intros ?]
    | apply triple_ret; intros; assumption ].

Lemma print_body_advances i0 :
  triple (fun i => i0 < i) (print_body tokens) (fun _ i' => i0 < i') any_exn.
Proof. unfold print_body. steps. Qed.

Lemma function_def_advances i0 :
  triple (fun i => i0 <= i) (function_def tokens) (fun _ i' => i0 < i') any_exn.
Proof.
  unfold function_def.
  eapply triple_bind; [apply match_advances|intros ?]. steps.
  eapply triple_bind with (mid := fun _ i' => i0 < i'); [|intros ?; steps].
  match goal with |- context [if ?b then _ else _] => destruct b end.
  - apply print_body_advances.
  - steps.
Qed.

Lemma call_statement_advances i0 :
  triple (fun i => i0 <= i) (call_statement tokens) (fun _ i' => i0 < i') any_exn.
Proof.
  unfold call_statement.
  eapply triple_bind; [apply match_advances|intros ?]. steps.
Qed.

Lemma statement_advances i n i' :
  statement tokens i = Ok (n, i') -> i < i'.
Proof.
  unfold statement, bind. intro H.
  destruct (kind_at_cursor tokens i) as [[k j]|] eqn:Ek; [|discriminate].
  assert (j = i).
  { unfold kind_at_cursor in Ek.
    destruct (nth_error tokens i) as [[? ?]|]; inversion Ek; reflexivity. }
  subst j. destruct (kind_eqb k DEF).
  - pose proof (function_def_advances i i (le_n i)) as T. rewrite H in T. exact T.
  - destruct (kind_eqb k ID && lparen_follows tokens i); [|discriminate].
    pose proof (call_statement_advances i i (le_n i)) as T. rewrite H in T. exact T.
Qed.

Lemma parse_loop_total : forall fuel i ast,
  List.length tokens - i < fuel ->
  exists r, parse_loop tokens fuel i ast = Some r.
Proof.
  induction fuel as [|fuel IH]; intros i ast Hf; [lia|]. simpl.
  destruct (i <? List.length tokens)%nat eqn:Ei; [|eauto].
  apply Nat.ltb_lt in Ei.
  destruct (statement tokens i) as [[n i']|e] eqn:Es; [|eauto].
  apply statement_advances in Es. apply IH. lia.
Qed.

End Progress.

Lemma parse_tokens_total tokens : exists r, parse_tokens tokens = Some r.
Proof. apply parse_loop_total. lia. Qed.

(** ** Tokens no grammar rule consumes *)

Section NeverParsed.

Variable tokens : list token.
Variables (j : nat) (kj : kind) (vj : string).
Hypothesis at_j : nth_error tokens j = Some (kj, vj).
Hypothesis stuck : never_parsed kj = true.

Lemma match_before expected :
  never_parsed expected = false ->
  triple (at_or_before j) (match_ tokens expected)
       (fun _ i' => at_or_before j i') raises_syntax.
Proof.
  intros Hexp i Hi. unfold at_or_before in *.
  destruct (match_ tokens expected i) as [[v i']|e] eqn:E.
  - apply match_ok in E. destruct E as [E ->].
    assert (i <> j); [|lia].
    intros ->. rewrite at_j in E. inversion E; subst. congruence.
  - apply match_raise in E. destruct E as [-> _]. reflexivity.
Qed.

Lemma kind_at_cursor_before :
  triple (at_or_before j) (kind_at_cursor tokens)
       (fun _ i' => at_or_before j i') raises_syntax.
Proof.
  intros i Hi. unfold kind_at_cursor, at_or_before in *.
  destruct (nth_error tokens i) as [[k v]|] eqn:E; [exact Hi|].
  apply nth_error_None in E.
  assert (j < List.length tokens) by (apply nth_error_Some; congruence).
  lia.
Qed.

Ltac steps :=
  repeat first
    [ eapply triple_bind; [apply match_before; reflexivity|intros ?]
    | eapply triple_bind; [apply kind_at_cursor_before|intros ?]
    | apply triple_ret; intros; assumption ].

Lemma print_body_before :
  triple (at_or_before j) (print_body tokens)
       (fun _ i' => at_or_before j i') raises_syntax.
Proof. unfold print_body. steps. Qed.

Lemma function_def_before :
  triple (at_or_before j) (function_def tokens)
       (fun _ i' => at_or_before j i') raises_syntax.
Proof.
  unfold function_def. steps.
  eapply triple_bind with (mid := fun _ i' => at_or_before j i'); [|intros ?; steps].
  match goal with |- context [if ?b then _ else _] => destruct b end.
  - apply print_body_before.
  - steps.
Qed.

Lemma call_statement_before :
  triple (at_or_before j) (call_statement tokens)
       (fun _ i' => at_or_before j i') raises_syntax.
Proof. unfold call_statement. steps. Qed.

Lemma statement_before :
  triple (at_or_before j) (statement tokens)
       (fun _ i' => at_or_before j i') raises_syntax.
Proof.
  intros i Hi. unfold statement.
  apply (triple_bind (kind_at_cursor tokens) _ (at_or_before j)
         (fun _ i' => at_or_before j i'));
    [apply kind_at_cursor_before| |exact Hi].
  intro k. destruct (kind_eqb k DEF); [apply function_def_before|].
  destruct (kind_eqb k ID && lparen_follows tokens i);
    [apply call_statement_before|].
  intros i' _. reflexivity.
Qed.

Lemma parse_loop_stuck : forall fuel i ast r,
  i <= j ->
  parse_loop tokens fuel i ast = Some r ->
  exists e, r = Raise e /\ is_syntax_error e = true.
Proof.
  induction fuel as [|fuel IH]; intros i ast r Hi H; [discriminate|].
  simpl in H.
  assert (Hj : j < List.length tokens) by (apply nth_error_Some; congruence).
  assert (E : (i <? List.length tokens)%nat = true) by (apply Nat.ltb_lt; lia).
  rewrite E in H.
  pose proof (statement_before i Hi) as T.
  destruct (statement tokens i) as [[n i']|e].
  - eapply IH; eassumption.
  - inversion H; subst. eauto.
Qed.

End NeverParsed.

(** ** The generators, node by node *)

Lemma fold_ir_stmt body : forall ir_lines,
  fold_left ir_stmt body ir_lines
  = (ir_lines ++ flat_map ir_print_lines body)%list.
Proof.
  induction body as [|[l r] body IH]; intro ir_lines; simpl.
  - rewrite app_nil_r. reflexivity.
  - rewrite IH. unfold list_append. rewrite <- !app_assoc. reflexivity.
Qed.

Lemma ir_node_append ir_lines n :
  ir_node ir_lines n = (ir_lines ++ ir_node_lines n)%list.
Proof.
  destruct n as [name param body|name arg]; simpl; unfold list_append.
  - rewrite fold_ir_stmt, <- !app_assoc. reflexivity.
  - reflexivity.
Qed.

Lemma fold_ir_node nodes : forall ir_lines,
  fold_left ir_node nodes ir_lines
  = (ir_lines ++ flat_map ir_node_lines nodes)%list.
Proof.
  induction nodes as [|n nodes IH]; intro ir_lines; cbn [fold_left flat_map].
  - rewrite app_nil_r. reflexivity.
  - rewrite IH, ir_node_append, <- app_assoc. reflexivity.
Qed.

Lemma ir_lines_of_flat_map nodes :
  ir_lines_of nodes = flat_map ir_node_lines nodes.
Proof. unfold ir_lines_of. rewrite fold_ir_node. reflexivity. Qed.

Lemma fold_cpp_stmt body : forall cpp_lines,
  fold_left cpp_stmt body cpp_lines
  = (cpp_lines ++ map cpp_print_line body)%list.
Proof.
  induction body as [|[l r] body IH]; intro cpp_lines; simpl.
  - rewrite app_nil_r. reflexivity.
  - rewrite IH. unfold list_append. rewrite <- app_assoc. reflexivity.
Qed.

Lemma cpp_node_append cpp_lines main_added n :
  cpp_node (cpp_lines, main_added) n
  = ((cpp_lines ++ cpp_node_lines main_added n)%list, main_added || is_call n).
Proof.
  destruct n as [name param body|name arg]; simpl; unfold list_append.
  - rewrite fold_cpp_stmt, <- !app_assoc, orb_false_r. reflexivity.
  - destruct main_added; simpl; rewrite <- ?app_assoc; reflexivity.
Qed.

Lemma fold_cpp_node nodes : forall cpp_lines main_added,
  fold_left cpp_node nodes (cpp_lines, main_added)
  = ((cpp_lines ++ emitted main_added nodes)%list, main_added || has_call nodes).
Proof.
  induction nodes as [|n nodes IH]; intros cpp_lines main_added;
    cbn [fold_left emitted has_call existsb].
  - rewrite app_nil_r, orb_false_r. reflexivity.
  - rewrite cpp_node_append, IH, <- app_assoc, orb_assoc. reflexivity.
Qed.

Lemma cpp_lines_of_emitted nodes :
  cpp_lines_of nodes
  = (preamble ++ emitted false nodes
       ++ (if has_call nodes then main_close else []))%list.
Proof.
  unfold cpp_lines_of. rewrite fold_cpp_node. simpl orb.
  destruct (has_call nodes).
  - rewrite <- app_assoc. reflexivity.
  - rewrite app_nil_r. reflexivity.
Qed.

Lemma emitted_app xs : forall main_added ys,
  emitted main_added (xs ++ ys)
  = (emitted main_added xs ++ emitted (main_added || has_call xs) ys)%list.
Proof.
  induction xs as [|n xs IH]; intros main_added ys; simpl.
  - rewrite orb_false_r. reflexivity.
  - rewrite IH, <- app_assoc, orb_assoc. reflexivity.
Qed.

Lemma emitted_no_call nodes :
  has_call nodes = false -> emitted false nodes = flat_map function_fragment nodes.
Proof.
  induction nodes as [|n nodes IH]; simpl; intro H; [reflexivity|].
  apply orb_false_elim in H. destruct H as [Hn H].
  rewrite Hn, (IH H). destruct n; [reflexivity|discriminate].
Qed.

(** ** What the alternation returns, by the first character *)

Ltac open_alternation :=
  unfold tok_regex, token_spec; cbn [alternation].

Lemma p_lit_here c prev t : p_lit c prev (String c t) = Some (str1 c, t).
Proof. unfold p_lit, p_char. rewrite Ascii.eqb_refl. reflexivity. Qed.

Ltac each_ascii c :=
  destruct c as [[|] [|] [|] [|] [|] [|] [|] [|]].

Lemma id_start_facts c :
  is_id_start c = true ->
  is_word c = true /\ is_digit c = false /\ is_blank c = false /\
  existsb (Ascii.eqb c) [dquote; newline; "="; "("; ")"; ":"; ","; "+"]%char = false.
Proof.
  each_ascii c; vm_compute; intro H;
    first [discriminate H | repeat split].
Qed.

Lemma tok_regex_newline_here prev t :
  tok_regex prev (String newline t) = Some (NEWLINE, nl, t).
Proof.
  open_alternation.
  rewrite !p_keyword_none, p_string_none, p_plus_none, !p_lit_none, p_id_none
    by reflexivity.
  rewrite p_lit_here. reflexivity.
Qed.

Lemma tok_regex_blank prev c t :
  is_blank c = true ->
  tok_regex prev (String c t) = Some (SKIP, fst (span is_blank (String c t)),
                                      snd (span is_blank (String c t))).
Proof.
  intro Hc.
  assert (Hp : p_plus is_blank prev (String c t)
               = Some (span is_blank (String c t))).
  { unfold p_plus. simpl. rewrite Hc. destruct (span is_blank t). reflexivity. }
  unfold is_blank in Hc. apply orb_prop in Hc.
  destruct Hc as [Hc|Hc]; apply ascii_eqb_true in Hc; subst c;
    open_alternation;
    rewrite !p_keyword_none, p_string_none, p_plus_none, !p_lit_none, p_id_none
      by reflexivity;
    rewrite Hp; destruct (span is_blank _); reflexivity.
Qed.

Lemma tok_regex_char k c prev t :
  In (k, c) [(ASSIGN, "="); (LPAREN, "("); (RPAREN, ")");
             (COLON, ":"); (COMMA, ","); (PLUS, "+")]%char ->
  tok_regex prev (String c t) = Some (k, str1 c, t).
Proof.
  simpl. intro H.
  repeat (destruct H as [H|H];
    [inversion H; subst; open_alternation;
     rewrite !p_keyword_none, p_string_none, p_plus_none, ?p_lit_none
       by reflexivity;
     rewrite p_lit_here; reflexivity|]).
  contradiction.
Qed.

Lemma tok_regex_literal prev body rest :
  is_literal_body body = true ->
  tok_regex prev (literal body ++ rest) = Some (STRING, literal body, rest).
Proof.
  intro Hb. unfold literal, q, str1. rewrite !append_assoc. cbn [append].
  open_alternation. rewrite !p_keyword_none by reflexivity.
  unfold p_string. rewrite (Ascii.eqb_refl dquote).
  rewrite (span_prefix _ body (String dquote rest) Hb)
    by reflexivity.
  reflexivity.
Qed.

Lemma last_char_all f kw prev :
  all_chars f kw = true -> kw <> "" ->
  exists c, last_char kw prev = Some c /\ f c = true.
Proof.
  revert prev. induction kw as [|a kw IH]; intros prev H Hne; [congruence|].
  simpl in H. apply andb_prop in H. destruct H as [Ha H].
  rewrite last_char_cons. destruct kw as [|b kw].
  - exists a. auto.
  - apply IH; [exact H|discriminate].
Qed.

(** A keyword pattern matches at a word only when the word is the
    keyword. *)
Lemma keyword_is_whole_word kw prev x rest v r :
  all_chars is_word kw = true -> kw <> "" ->
  all_chars is_word x = true -> word_at rest = false ->
  p_keyword kw prev (x ++ rest) = Some (v, r) -> x = kw.
Proof.
  intros Hkw Hne Hx Hrest H. unfold p_keyword in H.
  destruct (boundary prev (x ++ rest)); [|discriminate].
  destruct (strip_prefix kw (x ++ rest)) as [r'|] eqn:E; [|discriminate].
  destruct (boundary (last_char kw prev) r') eqn:Eb; [|discriminate].
  apply strip_prefix_append in E.
  destruct (last_char_all _ _ prev Hkw Hne) as (c & Hc & Hw).
  unfold boundary in Eb. rewrite Hc in Eb. simpl in Eb. rewrite Hw in Eb.
  simpl in Eb. apply negb_true_iff in Eb.
  assert (S1 : span is_word (x ++ rest) = (x, rest)).
  { apply span_prefix; [exact Hx|]. destruct rest; [exact I|exact Hrest]. }
  assert (S2 : span is_word (kw ++ r') = (kw, r')).
  { apply span_prefix; [exact Hkw|]. destruct r'; [exact I|exact Eb]. }
  rewrite E, S2 in S1. congruence.
Qed.

Lemma identifier_inv x :
  is_identifier x = true ->
  exists c t, x = String c t /\ is_id_start c = true /\
              all_chars is_word t = true /\ x <> "def" /\ x <> "print".
Proof.
  unfold is_identifier. intro H. bool_hyps.
  destruct x as [|c t]; [discriminate|]. bool_hyps.
  exists c, t. repeat split; auto; apply String.eqb_neq; assumption.
Qed.

Lemma tok_regex_identifier prev x rest :
  is_identifier x = true -> word_at rest = false ->
  tok_regex prev (x ++ rest) = Some (ID, x, rest).
Proof.
  intros Hx Hrest.
  destruct (identifier_inv x Hx) as (c & t & -> & Hc & Ht & Hdef & Hprint).
  destruct (id_start_facts c Hc) as (Hw & Hd & Hb & Hp).
  simpl existsb in Hp. bool_hyps.
  assert (Hall : all_chars is_word (String c t) = true)
    by (simpl; rewrite Hw, Ht; reflexivity).
  assert (Hkw : forall kw, all_chars is_word kw = true -> kw <> "" ->
                           String c t <> kw ->
                           p_keyword kw prev (String c t ++ rest) = None).
  { intros kw Hk1 Hk2 Hk3.
    destruct (p_keyword kw prev (String c t ++ rest)) as [[v r]|] eqn:E;
      [|reflexivity].
    apply keyword_is_whole_word in E; auto. contradiction. }
  open_alternation.
  rewrite !Hkw by (reflexivity || discriminate || assumption).
  cbn [append].
  rewrite p_string_none, p_plus_none, !p_lit_none by assumption.
  unfold p_id. rewrite Hc.
  rewrite (span_prefix is_word t rest Ht)
    by (destruct rest; [exact I|exact Hrest]).
  reflexivity.
Qed.

Lemma tok_regex_keyword k kw prev rest :
  In (k, kw) [(DEF, "def"); (PRINT, "print")] ->
  word_before prev = false -> word_at rest = false ->
  tok_regex prev (kw ++ rest) = Some (k, kw, rest).
Proof.
  intros Hin Hprev Hrest.
  assert (Hp : p_keyword kw prev (kw ++ rest) = Some (kw, rest)).
  { unfold p_keyword, boundary. rewrite Hprev, strip_prefix_here.
    destruct Hin as [H|[H|[]]]; inversion H; subst; simpl;
      rewrite Hrest; reflexivity. }
  destruct Hin as [H|[H|[]]]; inversion H; subst; open_alternation;
    cbn [append] in Hp |- *.
  - rewrite Hp. reflexivity.
  - rewrite p_keyword_none by reflexivity. rewrite Hp. reflexivity.
Qed.

Lemma tok_regex_blank_run prev run rest :
  all_chars is_blank run = true -> run <> "" ->
  starts_with is_blank rest = false ->
  tok_regex prev (run ++ rest) = Some (SKIP, run, rest).
Proof.
  intros Hrun Hne Hrest.
  destruct run as [|c run]; [congruence|].
  assert (Hc : is_blank c = true) by (simpl in Hrun; bool_hyps; assumption).
  change (String c run ++ rest) with (String c (run ++ rest)).
  rewrite (tok_regex_blank _ _ _ Hc).
  change (String c (run ++ rest)) with (String c run ++ rest).
  rewrite (span_prefix is_blank (String c run) rest Hrun)
    by (destruct rest; [exact I|exact Hrest]).
  reflexivity.
Qed.

Lemma identifier_not_blank x rest :
  is_identifier x = true -> starts_with is_blank (x ++ rest) = false.
Proof.
  intro Hx. destruct (identifier_inv x Hx) as (c & t & -> & Hc & _).
  simpl. apply id_start_facts in Hc. tauto.
Qed.

(** ** Text made of discarded characters only *)

Lemma all_chars_append f a b :
  all_chars f (a ++ b) = all_chars f a && all_chars f b.
Proof.
  induction a as [|c a IH]; simpl; [reflexivity|].
  rewrite IH, andb_assoc. reflexivity.
Qed.

Lemma tok_regex_discarded prev c t k v rest :
  is_discarded c = true ->
  tok_regex prev (String c t) = Some (k, v, rest) ->
  k = SKIP \/ k = NEWLINE.
Proof.
  unfold is_discarded. intros Hc E. apply orb_prop in Hc.
  destruct Hc as [Hc|Hc].
  - rewrite (tok_regex_blank _ _ _ Hc) in E. inversion E. auto.
  - apply ascii_eqb_true in Hc. subst c.
    rewrite tok_regex_newline_here in E. inversion E. auto.
Qed.

Lemma tokenize_discarded : forall prev s,
  all_chars is_discarded s = true ->
  tokenize_loop (matches_from prev s) [] = Ok [].
Proof.
  intros prev s. pattern prev, s. apply scan_ind; clear prev s.
  - intros prev _. reflexivity.
  - intros prev c t k v rest E IH H.
    rewrite (matches_from_cons _ _ _ _ _ E), tokenize_loop_cons.
    assert (Hrest : all_chars is_discarded rest = true).
    { destruct (tok_regex_sound _ _ _ _ _ E) as [Es _].
      rewrite Es, all_chars_append in H. bool_hyps. assumption. }
    simpl in H. apply andb_prop in H. destruct H as [Hc _].
    destruct (tok_regex_discarded _ _ _ _ _ _ Hc E) as [-> | ->]; auto.
Qed.

(** ** The tokens of a function definition *)

Lemma finditer_function_source name param body ref :
  is_identifier name = true -> is_identifier param = true ->
  is_identifier ref = true -> is_literal_body body = true ->
  finditer (function_source name param body ref) =
  [ (DEF, "def"); (SKIP, " "); (ID, name); (LPAREN, "("); (ID, param);
    (RPAREN, ")"); (COLON, ":"); (NEWLINE, nl); (SKIP, "    ");
    (PRINT, "print"); (LPAREN, "("); (STRING, literal body); (SKIP, " ");
    (PLUS, "+"); (SKIP, " "); (ID, ref); (RPAREN, ")") ].
Proof.
  intros Hname Hparam Href Hbody.
  rewrite finditer_matches_from. unfold function_source.
  rewrite (matches_from_cons _ _ DEF "def" (" " ++ name ++ _))
    by (apply (tok_regex_keyword DEF "def"); simpl; auto).
  rewrite (matches_from_cons _ _ SKIP " " (name ++ _))
    by (apply (tok_regex_blank_run _ " ");
        [reflexivity|discriminate|apply identifier_not_blank, Hname]).
  rewrite (matches_from_cons _ _ ID name ("(" ++ _))
    by (apply tok_regex_identifier; [exact Hname|reflexivity]).
  rewrite (matches_from_cons _ _ LPAREN "(" (param ++ _))
    by (apply tok_regex_char; simpl; tauto).
  rewrite (matches_from_cons _ _ ID param ("):" ++ _))
    by (apply tok_regex_identifier; [exact Hparam|reflexivity]).
  rewrite (matches_from_cons _ _ RPAREN ")" (":" ++ _))
    by (apply tok_regex_char; simpl; tauto).
  rewrite (matches_from_cons _ _ COLON ":" (nl ++ _))
    by (apply tok_regex_char; simpl; tauto).
  rewrite (matches_from_cons _ _ NEWLINE nl ("    print(" ++ _))
    by (apply tok_regex_newline_here).
  rewrite (matches_from_cons _ _ SKIP "    " ("print(" ++ _))
    by (apply (tok_regex_blank_run _ "    "); [reflexivity|discriminate|reflexivity]).
  rewrite (matches_from_cons _ _ PRINT "print" ("(" ++ _))
    by (apply (tok_regex_keyword PRINT "print"); [simpl; auto|reflexivity..]).
  rewrite (matches_from_cons _ _ LPAREN "(" (literal body ++ _))
    by (apply tok_regex_char; simpl; tauto).
  rewrite (matches_from_cons _ _ _ _ _ (tok_regex_literal _ body _ Hbody)).
  rewrite (matches_from_cons _ _ SKIP " " ("+ " ++ _))
    by (apply (tok_regex_blank_run _ " "); [reflexivity|discriminate|reflexivity]).
  rewrite (matches_from_cons _ _ PLUS "+" (" " ++ _))
    by (apply tok_regex_char; simpl; tauto).
  rewrite (matches_from_cons _ _ SKIP " " (ref ++ _))
    by (apply (tok_regex_blank_run _ " ");
        [reflexivity|discriminate|apply identifier_not_blank, Href]).
  rewrite (matches_from_cons _ _ ID ref ")")
    by (apply tok_regex_identifier; [exact Href|reflexivity]).
  rewrite (matches_from_cons _ _ RPAREN ")" "")
    by (apply tok_regex_char; simpl; tauto).
  reflexivity.
Qed.

(** ** The reference program *)

(** C1: on the reference program the tokenizer succeeds with the token
    sequence that begins (DEF, def), (ID, greet), (LPAREN), (ID, name),
    (RPAREN), (COLON), (PRINT, print); the parser succeeds; the
    intermediate code is the five lines func greet(name), t1 = "Hello " +
    name, print t1, endfunc, call greet("World"); and the C++ text defines
    greet with a string parameter and a main that calls greet("World"). *)
Theorem reference_program_translates :
  tokenize src1 = Ok tokens1 /\
  firstn 7 tokens1 =
    [ (DEF, "def"); (ID, "greet"); (LPAREN, "("); (ID, "name");
      (RPAREN, ")"); (COLON, ":"); (PRINT, "print") ] /\
  parse_tokens tokens1 = Some (Ok ast1) /\
  generate_ir ast1 =
    "func greet(name)" ++ nl ++ "t1 = " ++ q ++ "Hello " ++ q ++ " + name" ++ nl
    ++ "print t1" ++ nl ++ "endfunc" ++ nl
    ++ "call greet(" ++ q ++ "World" ++ q ++ ")" /\
  generate_cpp ast1 =
    join_lines
      [ "#include <iostream>"; "#include <string>"; "using namespace std;"; "";
        "void greet(string name) {";
        "    cout << " ++ q ++ "Hello " ++ q ++ " + name << endl;";
        "}";
        nl ++ "int main() {";
        "    greet(" ++ q ++ "World" ++ q ++ ");";
        "    return 0;";
        "}" ] /\
  translate_code src1 = Some (Ok (tokens1, ast1, generate_ir ast1, generate_cpp ast1)).
Proof. repeat split; vm_compute; reflexivity. Qed.

(** ** Empty function bodies *)

(** A header followed by a token that is not [print] parses to a function
    with an empty body, the cursor standing on that token. *)
Lemma empty_body_before_token name param k v tail :
  k <> PRINT ->
  statement (header_tokens name param ++ (k, v) :: tail)%list 0
  = Ok (Function name param [], 6).
Proof.
  intro Hk. apply kind_eqb_neq in Hk.
  unfold statement, function_def, bind, kind_at_cursor, match_. simpl.
  rewrite Hk. reflexivity.
Qed.

Lemma generate_ir_empty_body name param :
  generate_ir [Function name param []]
  = join_lines ["func " ++ name ++ "(" ++ param ++ ")"; "endfunc"].
Proof. reflexivity. Qed.

Lemma generate_cpp_empty_body name param :
  generate_cpp [Function name param []]
  = join_lines (preamble ++ ["void " ++ name ++ "(string " ++ param ++ ") {"; "}"]).
Proof. reflexivity. Qed.

(** C2, where the code departs from it: when the colon of a function
    header is the last token of the input, the test for a [print] body
    reads [tokens[i]] past the end and the parser raises IndexError
    instead of returning a function with an empty body. *)
Theorem empty_body_at_end_of_input_raises name param :
  parse_tokens (header_tokens name param) = Some (Raise IndexError) /\
  tokenize ("def f(x):" ++ nl) = Ok (header_tokens "f" "x") /\
  translate_code ("def f(x):" ++ nl) = Some (Raise IndexError).
Proof. repeat split; vm_compute; reflexivity. Qed.

(** ** Lexical errors *)

(** C3: when the scan reaches a character at which no defined pattern
    matches, [tokenize] raises the error that names this character, and
    the translation request ends with that error: no token list reaches
    the parser. *)
Theorem tokenize_raises_unexpected_character code n prev c post :
  scan_steps n None code = Some (prev, String c post) ->
  no_pattern_matches prev (String c post) = true ->
  tokenize code = Raise (unexpected_character (str1 c)) /\
  translate_code code = Some (Raise (unexpected_character (str1 c))).
Proof.
  intros Hscan Hno.
  assert (H : tokenize code = Raise (unexpected_character (str1 c))).
  { unfold tokenize. rewrite finditer_matches_from.
    eapply scan_steps_raise; [exact Hscan|].
    apply tokenize_raises_at, Hno. }
  split; [exact H|]. unfold translate_code. rewrite H. reflexivity.
Qed.

Lemma tokenize_raises_unexpected_character_witness :
  tokenize src3 = Raise (unexpected_character "$") /\
  translate_code src3 = Some (Raise (unexpected_character "$")).
Proof.
  apply (tokenize_raises_unexpected_character src3 18 (Some " "%char) "$"%char "");
    vm_compute; reflexivity.
Defined.

(** Every error of the tokenizer arises this way. *)
Lemma tokenize_raise_inv : forall prev s e,
  tokenize_loop (matches_from prev s) [] = Raise e ->
  exists n prev' c post,
    scan_steps n prev s = Some (prev', String c post) /\
    no_pattern_matches prev' (String c post) = true /\
    e = unexpected_character (str1 c).
Proof.
  intros prev s. pattern prev, s. apply scan_ind; clear prev s.
  - intros prev e H. discriminate.
  - intros prev c t k v rest E IH e H.
    rewrite (matches_from_cons _ _ _ _ _ E), tokenize_loop_cons in H.
    assert (Hstep : forall e', tokenize_loop (matches_from (last_char v prev) rest) [] = Raise e' ->
                    k <> MISMATCH ->
                    exists n prev' c' post,
                      scan_steps n prev (String c t) = Some (prev', String c' post) /\
                      no_pattern_matches prev' (String c' post) = true /\
                      e' = unexpected_character (str1 c')).
    { intros e' He' Hk. destruct (IH _ He') as (n & prev' & c' & post & Hs & Hno & ->).
      exists (S n), prev', c', post. simpl. rewrite E.
      apply kind_eqb_neq in Hk. rewrite Hk. auto. }
    destruct k; try (apply map_result_raise in H);
      try (apply Hstep; [exact H|discriminate]).
    apply tok_regex_mismatch in E. destruct E as (c' & -> & Ec & Hno).
    inversion Ec; subst. inversion H; subst.
    exists 0, prev, c', rest. auto.
Qed.

(** ** Programs without a call *)

Lemma function_fragment_lines nodes l :
  In l (flat_map function_fragment nodes) ->
  (exists name param, l = "void " ++ name ++ "(string " ++ param ++ ") {")
  \/ (exists s, l = cpp_print_line s) \/ l = "}".
Proof.
  rewrite in_flat_map. intros (n & _ & Hl).
  destruct n as [name param body|name arg]; [|contradiction].
  cbn [function_fragment cpp_function_lines In] in Hl.
  destruct Hl as [<-|Hl]; [left; exists name, param; reflexivity|].
  apply in_app_or in Hl. destruct Hl as [Hl|[<-|[]]];
    [|right; right; reflexivity].
  apply in_map_iff in Hl. destruct Hl as (s & <- & _).
  right; left; exists s; reflexivity.
Qed.

(** C4: for a node sequence without a call, the C++ lines are the
    preamble followed by the function definitions and nothing else: the
    line that opens [main] and the return line do not occur. *)
Theorem no_call_no_entry_point nodes :
  has_call nodes = false ->
  cpp_lines_of nodes = (preamble ++ flat_map function_fragment nodes)%list /\
  generate_cpp nodes = join_lines (preamble ++ flat_map function_fragment nodes) /\
  ~ In main_open (cpp_lines_of nodes) /\
  ~ In "    return 0;" (cpp_lines_of nodes).
Proof.
  intro H.
  assert (E : cpp_lines_of nodes = (preamble ++ flat_map function_fragment nodes)%list).
  { rewrite cpp_lines_of_emitted, H, app_nil_r, (emitted_no_call _ H). reflexivity. }
  split; [exact E|]. split; [unfold generate_cpp; rewrite E; reflexivity|].
  rewrite E. split; intro Hin; apply in_app_or in Hin;
    (destruct Hin as [Hin|Hin];
     [simpl in Hin; repeat (destruct Hin as [Hin|Hin]; [discriminate Hin|]);
      contradiction|]);
    apply function_fragment_lines in Hin;
    destruct Hin as [(name & param & Hl)|[([l r] & Hl)|Hl]];
    simpl in Hl; discriminate Hl.
Qed.

Lemma no_call_no_entry_point_witness :
  generate_cpp [Function "f" "x" [Print (literal "a") "x"]]
  = join_lines (preamble ++ ["void f(string x) {";
                             "    cout << " ++ literal "a" ++ " + x << endl;";
                             "}"]).
Proof.
  apply (no_call_no_entry_point [Function "f" "x" [Print (literal "a") "x"]]).
  reflexivity.
Defined.

(** ** Exact match or failure *)

Section Reports.

Variable tokens : list token.

Lemma match_reports expected :
  triple any_cursor (match_ tokens expected) (fun _ _ => True)
         (reports_actual_token tokens).
Proof.
  intros i _. destruct (match_ tokens expected i) as [[v i']|e] eqn:E; [exact I|].
  apply match_raise in E. destruct E as [-> Hne]. simpl. eauto.
Qed.

Lemma kind_at_cursor_reports :
  triple any_cursor (kind_at_cursor tokens) (fun _ _ => True)
         (reports_actual_token tokens).
Proof.
  intros i _. unfold kind_at_cursor.
  destruct (nth_error tokens i) as [[k v]|]; exact I.
Qed.

Ltac steps :=
  repeat first
    [ eapply triple_bind; [apply match_reports|intros ?]
    | eapply triple_bind; [apply kind_at_cursor_reports|intros ?]
    | apply triple_ret; intros; exact I ].

Lemma statement_reports :
  triple any_cursor (statement tokens) (fun _ _ => True)
         (reports_actual_token tokens).
Proof.
  intros i Hi. unfold statement.
  apply (triple_bind (kind_at_cursor tokens) _ any_cursor (fun _ _ => True));
    [apply kind_at_cursor_reports| |exact Hi].
  intro k. destruct (kind_eqb k DEF).
  - unfold function_def. steps.
    eapply triple_bind with (mid := fun _ _ => True); [|intros ?; steps].
    match goal with |- context [if ?b then _ else _] => destruct b end;
      [unfold print_body|]; steps.
  - destruct (kind_eqb k ID && lparen_follows tokens i).
    + unfold call_statement. steps.
    + intros i' _. exact I.
Qed.

Lemma parse_loop_reports : forall fuel i ast e,
  parse_loop tokens fuel i ast = Some (Raise e) ->
  reports_actual_token tokens e.
Proof.
  induction fuel as [|fuel IH]; intros i ast e H; [discriminate|].
  simpl in H. destruct (i <? List.length tokens)%nat; [|discriminate].
  pose proof (statement_reports i I) as T.
  destruct (statement tokens i) as [[n i']|e'].
  - eapply IH, H.
  - inversion H; subst. exact T.
Qed.

End Reports.

(** C5: the text [def f(x) print("a"+x)] tokenizes, and parsing it fails
    with the error that a COLON was expected and the token (PRINT, print)
    was found.  In general [match] either returns the text of the current
    token, which has the expected kind, and advances by one, or raises
    the error carrying the expected kind and the current token (none at
    the end of the input), which has not the expected kind; and a mismatch
    the parser reports always carries the expected kind and the actual
    token at some cursor position. *)
Theorem match_is_exact_or_fails tokens :
  (tokenize src4 = Ok tokens4 /\
   parse_tokens tokens4
   = Some (Raise (SyntaxError_expected COLON (Some (PRINT, "print"))))) /\
  (forall expected i,
     match match_ tokens expected i with
     | Ok (val, i') => nth_error tokens i = Some (expected, val) /\ i' = S i
     | Raise e =>
         e = SyntaxError_expected expected (nth_error tokens i) /\
         forall v, nth_error tokens i <> Some (expected, v)
     end) /\
  (forall expected got,
     parse_tokens tokens = Some (Raise (SyntaxError_expected expected got)) ->
     exists i, got = nth_error tokens i /\ forall v, got <> Some (expected, v)).
Proof.
  split; [split; vm_compute; reflexivity|]. split.
  - intros expected i.
    destruct (match_ tokens expected i) as [[v i']|e] eqn:E.
    + apply match_ok, E.
    + apply match_raise, E.
  - intros expected got H.
    apply (parse_loop_reports tokens _ _ _ _ H).
Qed.

Lemma match_is_exact_or_fails_witness :
  exists i, Some (PRINT, "print") = nth_error tokens4 i /\
            forall v, Some (PRINT, "print") <> Some (COLON, v).
Proof.
  apply (proj2 (proj2 (match_is_exact_or_fails tokens4)) COLON (Some (PRINT, "print"))).
  vm_compute. reflexivity.
Defined.

(** ** Coverage of the input *)

(** C6: when [tokenize] succeeds, the input text is exactly the token
    texts in order, each non-empty, with runs of blanks and newlines
    between them: every character belongs to one token or is discarded
    whitespace. *)
Theorem tokenize_covers_input code toks :
  tokenize code = Ok toks ->
  Covers code toks /\
  Forall (fun t => is_token_kind (fst t) = true) toks.
Proof.
  unfold tokenize. rewrite finditer_matches_from. intro H.
  split; [eapply covers_from, H|eapply token_kinds_from, H].
Qed.

Lemma tokenize_covers_input_witness :
  Covers src1 tokens1 /\
  Forall (fun t => is_token_kind (fst t) = true) tokens1.
Proof.
  apply (tokenize_covers_input src1 tokens1). vm_compute. reflexivity.
Defined.

(** ** Empty input *)

(** C9: for a text that is empty or made of blanks, tabs and newlines
    only, the translation succeeds with no token, no node, the empty
    intermediate code and the C++ text made of the preamble lines alone. *)
Theorem blank_input_translates_to_preamble code :
  all_chars is_discarded code = true ->
  tokenize code = Ok [] /\
  parse_tokens [] = Some (Ok []) /\
  generate_ir [] = "" /\
  generate_cpp [] =
    "#include <iostream>" ++ nl ++ "#include <string>" ++ nl
    ++ "using namespace std;" ++ nl /\
  generate_cpp [] = join_lines preamble /\
  translate_code code = Some (Ok ([], [], "", join_lines preamble)).
Proof.
  intro H.
  assert (T : tokenize code = Ok []).
  { unfold tokenize. rewrite finditer_matches_from. apply tokenize_discarded, H. }
  repeat split; try exact T. unfold translate_code. rewrite T. reflexivity.
Qed.

Lemma blank_input_translates_to_preamble_witness :
  translate_code (" " ++ nl ++ str1 tab ++ "  " ++ nl)
  = Some (Ok ([], [], "", join_lines preamble)).
Proof.
  apply (blank_input_translates_to_preamble (" " ++ nl ++ str1 tab ++ "  " ++ nl)).
  reflexivity.
Defined.

(** ** Kinds without a grammar rule *)

(** C10: the tokenizer produces tokens of the kinds NUMBER, ASSIGN and
    COMMA, and a token sequence that holds a token of one of these kinds
    never parses: the parser raises a SyntaxError. *)
Theorem never_parsed_kind_is_syntax_error tokens :
  existsb (fun t : token => never_parsed (fst t)) tokens = true ->
  tokenize "1=," = Ok [(NUMBER, "1"); (ASSIGN, "="); (COMMA, ",")] /\
  exists e, parse_tokens tokens = Some (Raise e) /\ is_syntax_error e = true.
Proof.
  intro H. split; [vm_compute; reflexivity|].
  apply existsb_exists in H. destruct H as ([kj vj] & Hin & Hk).
  apply In_nth_error in Hin. destruct Hin as (j & Hj).
  destruct (parse_tokens_total tokens) as (r & Hr).
  destruct (parse_loop_stuck tokens j kj vj Hj Hk _ 0 [] r (Nat.le_0_l j) Hr)
    as (e & -> & He).
  exists e. auto.
Qed.

Lemma never_parsed_kind_is_syntax_error_witness :
  tokenize "1=," = Ok [(NUMBER, "1"); (ASSIGN, "="); (COMMA, ",")] /\
  exists e, parse_tokens [(ID, "f"); (LPAREN, "("); (NUMBER, "1"); (RPAREN, ")")]
            = Some (Raise e) /\ is_syntax_error e = true.
Proof.
  apply (never_parsed_kind_is_syntax_error
           [(ID, "f"); (LPAREN, "("); (NUMBER, "1"); (RPAREN, ")")]).
  reflexivity.
Defined.

(** ** The text of each kind of token *)

Lemma p_keyword_inv kw prev s v rest :
  p_keyword kw prev s = Some (v, rest) -> v = kw.
Proof.
  unfold p_keyword. destruct (boundary prev s); [|discriminate].
  destruct (strip_prefix kw s) as [r|]; [|discriminate].
  destruct (boundary (last_char kw prev) r); [|discriminate].
  intro H. inversion H. reflexivity.
Qed.

Lemma p_string_inv prev s v rest :
  p_string prev s = Some (v, rest) ->
  exists body, is_literal_body body = true /\ v = literal body.
Proof.
  unfold p_string. destruct s as [|c t]; [discriminate|].
  destruct (Ascii.eqb c dquote); [|discriminate].
  destruct (span (fun x => negb (Ascii.eqb x dquote)) t) as [body r] eqn:Es.
  destruct r as [|c' r']; [discriminate|].
  intro H. inversion H; subst. exists body. split; [|reflexivity].
  eapply span_all, Es.
Qed.

Lemma p_plus_inv f prev s v rest :
  p_plus f prev s = Some (v, rest) -> v <> "" /\ all_chars f v = true.
Proof.
  unfold p_plus. destruct (span f s) as [run r] eqn:Es.
  destruct run as [|c run]; [discriminate|].
  intro H. inversion H; subst. split; [discriminate|eapply span_all, Es].
Qed.

Lemma p_lit_inv a prev s v rest :
  p_lit a prev s = Some (v, rest) -> v = str1 a.
Proof.
  unfold p_lit, p_char. destruct s as [|c t]; [discriminate|].
  destruct (Ascii.eqb a c) eqn:E; [|discriminate].
  apply ascii_eqb_true in E. subst c. intro H. inversion H. reflexivity.
Qed.

Lemma p_id_inv prev s v rest :
  p_id prev s = Some (v, rest) -> is_name v = true.
Proof.
  unfold p_id. destruct s as [|c t]; [discriminate|].
  destruct (is_id_start c) eqn:Ec; [|discriminate].
  destruct (span is_word t) as [run r] eqn:Es.
  intro H. inversion H; subst. simpl. rewrite Ec. eapply span_all, Es.
Qed.

Lemma tok_regex_well_formed prev s k v rest :
  tok_regex prev s = Some (k, v, rest) ->
  is_token_kind k = true -> well_formed (k, v).
Proof.
  split_alternation prev s; intros H Hk; inversion H; subst;
    try discriminate Hk; simpl;
    match goal with
    | E : p_keyword _ _ _ = Some _ |- _ => apply p_keyword_inv in E; exact E
    | E : p_string _ _ = Some _ |- _ => apply p_string_inv in E; exact E
    | E : p_plus _ _ _ = Some _ |- _ => apply p_plus_inv in E; exact E
    | E : p_lit _ _ _ = Some _ |- _ => apply p_lit_inv in E; exact E
    | E : p_id _ _ = Some _ |- _ => apply p_id_inv in E; exact E
    end.
Qed.

Lemma well_formed_from : forall prev s toks,
  tokenize_loop (matches_from prev s) [] = Ok toks -> Forall well_formed toks.
Proof.
  intros prev s. pattern prev, s. apply scan_ind; clear prev s.
  - intros prev toks H. rewrite matches_from_nil in H. inversion H. constructor.
  - intros prev c t k v rest E IH toks H.
    rewrite (matches_from_cons _ _ _ _ _ E), tokenize_loop_cons in H.
    destruct k;
      try (apply map_result_ok in H; destruct H as (toks' & H & ->);
           constructor;
           [apply (tok_regex_well_formed _ _ _ _ _ E); reflexivity|apply IH, H]);
      try (apply IH, H).
    discriminate.
Qed.

(** X1: every token [tokenize] returns carries the text of its kind: a
    keyword or punctuation token its fixed text, a string token a quoted
    text without an inner quote, a number token a non-empty run of
    digits, an identifier token a letter or underscore followed by word
    characters. *)
Theorem tokenize_tokens_well_formed code toks :
  tokenize code = Ok toks -> Forall well_formed toks.
Proof.
  unfold tokenize. rewrite finditer_matches_from. apply well_formed_from.
Qed.

Lemma tokenize_tokens_well_formed_witness : Forall well_formed tokens1.
Proof.
  apply (tokenize_tokens_well_formed src1 tokens1). vm_compute. reflexivity.
Defined.

(** X2: the only exception [tokenize] raises is the RuntimeError for an
    unexpected character, and the character it names stands in the text
    at a position the scan reached, where no pattern but the catch-all
    matches. *)
Theorem tokenize_raises_only_unexpected_character code e :
  tokenize code = Raise e ->
  exists n prev pre c post,
    scan_steps n None code = Some (prev, String c post) /\
    code = pre ++ String c post /\
    no_pattern_matches prev (String c post) = true /\
    e = unexpected_character (str1 c).
Proof.
  unfold tokenize. rewrite finditer_matches_from. intro H.
  apply tokenize_raise_inv in H.
  destruct H as (n & prev & c & post & Hs & Hno & ->).
  destruct (scan_steps_position _ _ _ _ _ Hs) as (pre & Hpre & _).
  exists n, prev, pre, c, post. auto.
Qed.

Lemma tokenize_raises_only_unexpected_character_witness :
  exists n prev pre c post,
    scan_steps n None src3 = Some (prev, String c post) /\
    src3 = pre ++ String c post /\
    no_pattern_matches prev (String c post) = true /\
    unexpected_character "$" = unexpected_character (str1 c).
Proof.
  apply (tokenize_raises_only_unexpected_character src3 (unexpected_character "$")).
  vm_compute. reflexivity.
Defined.

(** ** Single words, literals and numbers *)

Lemma tokenize_one prev s k v :
  tok_regex prev s = Some (k, v, "") -> is_token_kind k = true ->
  tokenize_loop (matches_from prev s) [] = Ok [(k, v)].
Proof.
  intros E Hk. rewrite (matches_from_cons _ _ _ _ _ E), tokenize_loop_cons.
  rewrite matches_from_nil. destruct k; try discriminate Hk; reflexivity.
Qed.

(** X4: a word that is not exactly a keyword is one identifier token, also
    when it begins with a keyword. *)
Theorem tokenize_identifier x :
  is_identifier x = true -> tokenize x = Ok [(ID, x)].
Proof.
  intro Hx. unfold tokenize. rewrite finditer_matches_from.
  apply tokenize_one; [|reflexivity].
  rewrite <- (append_nil_r x) at 1.
  apply tok_regex_identifier; [exact Hx|reflexivity].
Qed.

Lemma tokenize_identifier_witness :
  tokenize "define" = Ok [(ID, "define")].
Proof. apply (tokenize_identifier "define"). reflexivity. Defined.

(** X5: a quoted text without an inner quote is one string token, its
    quotes included, whatever stands between them: newlines, keywords
    and symbols outside the grammar are not scanned there. *)
Theorem tokenize_literal body :
  is_literal_body body = true ->
  tokenize (literal body) = Ok [(STRING, literal body)].
Proof.
  intro Hb. unfold tokenize. rewrite finditer_matches_from.
  apply tokenize_one; [|reflexivity].
  rewrite <- (append_nil_r (literal body)) at 1.
  apply tok_regex_literal, Hb.
Qed.

Lemma tokenize_literal_witness :
  tokenize (literal ("def $" ++ nl ++ "print"))
  = Ok [(STRING, literal ("def $" ++ nl ++ "print"))].
Proof. apply (tokenize_literal ("def $" ++ nl ++ "print")). reflexivity. Defined.

Lemma digit_facts c :
  is_digit c = true ->
  is_word c = true /\ is_id_start c = false /\ Ascii.eqb c dquote = false /\
  Ascii.eqb "d" c = false /\ Ascii.eqb "p" c = false.
Proof.
  each_ascii c; vm_compute; intro H;
    first [discriminate H | repeat split].
Qed.

Lemma tok_regex_number prev d rest :
  all_chars is_digit d = true -> d <> "" ->
  starts_with is_digit rest = false ->
  tok_regex prev (d ++ rest) = Some (NUMBER, d, rest).
Proof.
  intros Hd Hne Hrest. destruct d as [|c d]; [congruence|].
  assert (Hc : is_digit c = true) by (simpl in Hd; bool_hyps; assumption).
  destruct (digit_facts c Hc) as (_ & _ & Hq & Hdd & Hp).
  open_alternation. cbn [append].
  rewrite !p_keyword_none, p_string_none by assumption.
  unfold p_plus. change (String c (d ++ rest)) with (String c d ++ rest).
  rewrite (span_prefix is_digit (String c d) rest Hd)
    by (destruct rest; [exact I|exact Hrest]).
  reflexivity.
Qed.

Lemma name_inv x :
  is_name x = true ->
  exists c t, x = String c t /\ is_id_start c = true /\ all_chars is_word t = true.
Proof.
  destruct x as [|c t]; [discriminate|]. simpl. intro H. bool_hyps. eauto.
Qed.

(** After a word character no keyword can start: the name is an
    identifier, whatever it spells. *)
Lemma tok_regex_name_after_word prev x rest :
  word_before prev = true -> is_name x = true -> word_at rest = false ->
  tok_regex prev (x ++ rest) = Some (ID, x, rest).
Proof.
  intros Hprev Hx Hrest.
  destruct (name_inv x Hx) as (c & t & -> & Hc & Ht).
  destruct (id_start_facts c Hc) as (Hw & Hd & Hb & Hp).
  simpl existsb in Hp. bool_hyps.
  assert (Hkw : forall kw, p_keyword kw prev (String c t ++ rest) = None).
  { intro kw. unfold p_keyword, boundary. simpl. rewrite Hprev, Hw. reflexivity. }
  open_alternation. rewrite !Hkw. cbn [append].
  rewrite p_string_none, p_plus_none, !p_lit_none by assumption.
  unfold p_id. rewrite Hc.
  rewrite (span_prefix is_word t rest Ht)
    by (destruct rest; [exact I|exact Hrest]).
  reflexivity.
Qed.

(** X6: a name written right after a number is an identifier token even
    when it spells a keyword, since no word boundary separates the two. *)
Theorem tokenize_name_after_number d x :
  d <> "" -> all_chars is_digit d = true -> is_name x = true ->
  tokenize (d ++ x) = Ok [(NUMBER, d); (ID, x)].
Proof.
  intros Hne Hd Hx. unfold tokenize. rewrite finditer_matches_from.
  assert (Hstart : starts_with is_digit x = false).
  { destruct (name_inv x Hx) as (c & t & -> & Hc & _). simpl.
    apply id_start_facts in Hc. tauto. }
  rewrite (matches_from_cons _ _ _ _ _ (tok_regex_number None d x Hd Hne Hstart)).
  rewrite tokenize_loop_cons.
  destruct (last_char_all _ d None Hd Hne) as (c & Hc & Hdc).
  rewrite tokenize_one with (k := ID) (v := x); [reflexivity| |reflexivity].
  rewrite <- (append_nil_r x) at 1.
  apply tok_regex_name_after_word; [|exact Hx|reflexivity].
  rewrite Hc. simpl. apply digit_facts in Hdc. tauto.
Qed.

Lemma tokenize_name_after_number_witness :
  tokenize "12def" = Ok [(NUMBER, "12"); (ID, "def")].
Proof.
  apply (tokenize_name_after_number "12" "def"); [discriminate|reflexivity..].
Defined.

(** ** A newline at the end of the text *)

Lemma span_append_rest f s tail : forall run c r,
  span f s = (run, String c r) ->
  span f (s ++ tail) = (run, String c r ++ tail).
Proof.
  induction s as [|a s IH]; simpl; intros run c r H; [discriminate|].
  destruct (f a) eqn:Ea.
  - destruct (span f s) as [r1 r2] eqn:Es. inversion H; subst.
    rewrite (IH _ _ _ eq_refl). reflexivity.
  - inversion H; subst. simpl. reflexivity.
Qed.

Lemma span_append_all f s tail : forall run,
  span f s = (run, "") ->
  span f (s ++ tail) = (run ++ fst (span f tail), snd (span f tail)).
Proof.
  induction s as [|a s IH]; simpl; intros run H.
  - inversion H; subst. destruct (span f tail). reflexivity.
  - destruct (f a) eqn:Ea; [|discriminate].
    destruct (span f s) as [r1 r2] eqn:Es. inversion H; subst.
    rewrite (IH _ eq_refl). reflexivity.
Qed.

(** A run of a class the newline is not in ends before the newline. *)
Lemma span_before_newline f s :
  f newline = false ->
  span f (s ++ nl) = (fst (span f s), snd (span f s) ++ nl).
Proof.
  intro Hf. destruct (span f s) as [run [|c r]] eqn:Es.
  - rewrite (span_append_all _ _ _ _ Es). simpl. rewrite Hf. simpl.
    rewrite append_nil_r. reflexivity.
  - rewrite (span_append_rest _ _ _ _ _ _ Es). reflexivity.
Qed.

Lemma strip_prefix_append_some p : forall s r tail,
  strip_prefix p s = Some r -> strip_prefix p (s ++ tail) = Some (r ++ tail).
Proof.
  induction p as [|a p IH]; simpl; intros s r tail H.
  - inversion H. reflexivity.
  - destruct s as [|b s]; [discriminate|]. simpl.
    destruct (Ascii.eqb a b); [apply IH, H|discriminate].
Qed.

Lemma strip_prefix_append_none p : forall s,
  all_chars is_word p = true ->
  strip_prefix p s = None -> strip_prefix p (s ++ nl) = None.
Proof.
  induction p as [|a p IH]; simpl; intros s Hp H; [discriminate|].
  apply andb_prop in Hp. destruct Hp as [Ha Hp].
  destruct s as [|b s]; simpl.
  - destruct (Ascii.eqb a newline) eqn:E; [|reflexivity].
    apply ascii_eqb_true in E. subst a. discriminate Ha.
  - destruct (Ascii.eqb a b); [apply IH; assumption|reflexivity].
Qed.

Lemma word_at_before_newline r : word_at (r ++ nl) = word_at r.
Proof. destruct r; reflexivity. Qed.

Lemma stable_keyword kw :
  all_chars is_word kw = true -> newline_stable (p_keyword kw).
Proof.
  intros Hkw prev c t. unfold p_keyword, boundary.
  change (word_at (String c t ++ nl)) with (word_at (String c t)).
  destruct (xorb (word_before prev) (word_at (String c t))); [|reflexivity].
  destruct (strip_prefix kw (String c t)) as [r|] eqn:E.
  - rewrite (strip_prefix_append_some _ _ _ nl E), word_at_before_newline.
    destruct (xorb _ (word_at r)); reflexivity.
  - rewrite (strip_prefix_append_none _ _ Hkw E). reflexivity.
Qed.

Lemma stable_string : newline_stable p_string.
Proof.
  intros prev c t. unfold p_string. cbn [append].
  destruct (Ascii.eqb c dquote); [|reflexivity].
  destruct (span (fun x => negb (Ascii.eqb x dquote)) t) as [body [|c' r']] eqn:Es.
  - rewrite (span_append_all _ _ nl _ Es). reflexivity.
  - rewrite (span_append_rest _ _ nl _ _ _ Es). reflexivity.
Qed.

Lemma stable_plus f : f newline = false -> newline_stable (p_plus f).
Proof.
  intros Hf prev c t. unfold p_plus.
  rewrite (span_before_newline f (String c t) Hf).
  destruct (span f (String c t)) as [[|a run] r]; reflexivity.
Qed.

Lemma stable_char f : newline_stable (p_char f).
Proof.
  intros prev c t. unfold p_char. cbn [append].
  destruct (f c); reflexivity.
Qed.

Lemma stable_id : newline_stable p_id.
Proof.
  intros prev c t. unfold p_id. cbn [append].
  destruct (is_id_start c); [|reflexivity].
  rewrite (span_before_newline is_word t) by reflexivity.
  destruct (span is_word t). reflexivity.
Qed.

Lemma stable_token_spec : Forall (fun kp => newline_stable (snd kp)) token_spec.
Proof.
  unfold token_spec.
  repeat (apply Forall_cons; [simpl;
    first [ apply stable_keyword; reflexivity | apply stable_string
          | apply stable_plus; reflexivity | apply stable_char
          | apply stable_id ] |]).
  apply Forall_nil.
Qed.

Lemma alternation_before_newline spec prev c t :
  Forall (fun kp => newline_stable (snd kp)) spec ->
  alternation spec prev (String c t ++ nl) =
  match alternation spec prev (String c t) with
  | Some (k, v, rest) => Some (k, v, rest ++ nl)
  | None => None
  end.
Proof.
  induction spec as [|[k p] spec IH]; intro Hs; [reflexivity|].
  inversion Hs as [|? ? Hp Hs']; subst. cbn [alternation].
  simpl in Hp. rewrite (Hp prev c t).
  destruct (p prev (String c t)) as [[v rest]|]; [reflexivity|]. simpl.
  apply IH, Hs'.
Qed.

Lemma tokens_before_newline : forall prev s,
  tokenize_loop (matches_from prev (s ++ nl)) []
  = tokenize_loop (matches_from prev s) [].
Proof.
  intros prev s. pattern prev, s. apply scan_ind; clear prev s.
  - intro prev. change ("" ++ nl) with (String newline "").
    rewrite (matches_from_cons _ _ _ _ _ (tok_regex_newline_here prev "")).
    reflexivity.
  - intros prev c t k v rest E IH.
    assert (E' : tok_regex prev (String c t ++ nl) = Some (k, v, rest ++ nl)).
    { unfold tok_regex in *.
      rewrite (alternation_before_newline _ _ _ _ stable_token_spec), E.
      reflexivity. }
    rewrite (matches_from_cons _ _ _ _ _ E), (matches_from_cons _ _ _ _ _ E').
    rewrite !tokenize_loop_cons, IH. reflexivity.
Qed.

(** X7: a newline added at the end of the text, as the text widget does
    on reading, changes neither the tokens nor the error of [tokenize],
    and so nothing of the result of the translation. *)
Theorem trailing_newline_is_ignored code :
  tokenize (code ++ nl) = tokenize code /\
  translate_code (code ++ nl) = translate_code code.
Proof.
  assert (H : tokenize (code ++ nl) = tokenize code).
  { unfold tokenize. rewrite !finditer_matches_from. apply tokens_before_newline. }
  split; [exact H|]. unfold translate_code. rewrite H. reflexivity.
Qed.

(** ** What a successful parsing step has read *)

Lemma bind_ok {A B} (m : parser A) (f : A -> parser B) i b j :
  bind m f i = Ok (b, j) ->
  exists a i', m i = Ok (a, i') /\ f a i' = Ok (b, j).
Proof.
  unfold bind. destruct (m i) as [[a i']|e]; [eauto|discriminate].
Qed.

Lemma bind_raise {A B} (m : parser A) (f : A -> parser B) i e :
  bind m f i = Raise e ->
  m i = Raise e \/ exists a i', m i = Ok (a, i') /\ f a i' = Raise e.
Proof.
  unfold bind. destruct (m i) as [[a i']|e']; [eauto|].
  intro H. inversion H. auto.
Qed.

Lemma kind_at_cursor_ok tokens i k j :
  kind_at_cursor tokens i = Ok (k, j) ->
  j = i /\ exists v, nth_error tokens i = Some (k, v).
Proof.
  unfold kind_at_cursor. destruct (nth_error tokens i) as [[k' v]|]; [|discriminate].
  intro H. inversion H; subst. eauto.
Qed.

Lemma skipn_nth {A} (l : list A) : forall i x,
  nth_error l i = Some x -> skipn i l = x :: skipn (S i) l.
Proof.
  induction l as [|a l IH]; intros [|i] x H; try discriminate.
  - inversion H. reflexivity.
  - simpl in H. rewrite (skipn_cons i a l). apply IH, H.
Qed.

Ltac read_match H :=
  let Hm := fresh "Hm" in
  apply bind_ok in H; destruct H as (? & ? & Hm & H);
  apply match_ok in Hm; destruct Hm as [Hm ->].

(** The tokens read between two cursors, from the tokens found at each
    position. *)
Ltac collect_tokens :=
  match goal with
  | |- exists consumed, skipn ?i ?l = (consumed ++ skipn ?j ?l)%list /\ _ =>
      let sk := fresh "sk" in
      let Hs := fresh "Hs" in
      remember (skipn i l) as sk eqn:Hs;
      repeat match goal with
      | Hm : nth_error l ?p = Some ?t |- _ =>
          rewrite (skipn_nth l p t Hm) in Hs; clear Hm
      end;
      try match goal with
      | Hk : skipn _ l = (_ ++ skipn j l)%list |- _ => rewrite Hk in Hs
      end;
      try rewrite <- (app_nil_l (skipn j l)) in Hs at 1;
      rewrite ?app_comm_cons in Hs;
      match type of Hs with
      | _ = (?c ++ _)%list => exists c; split; [exact Hs|]
      end
  end.

Lemma print_body_ok tokens i body i' :
  print_body tokens i = Ok (body, i') ->
  exists consumed,
    skipn i tokens = (consumed ++ skipn i' tokens)%list /\
    i' = i + List.length consumed /\
    map significant consumed = map significant (flat_map stmt_tokens body) /\
    List.length body = 1.
Proof.
  unfold print_body. intro H. do 6 read_match H.
  inversion H; subst. collect_tokens.
  simpl. split; [lia|split; reflexivity].
Qed.

Lemma statement_ok tokens i n i' :
  statement tokens i = Ok (n, i') ->
  exists consumed,
    skipn i tokens = (consumed ++ skipn i' tokens)%list /\
    i' = i + List.length consumed /\
    map significant consumed = map significant (node_tokens n) /\
    body_ok n.
Proof.
  unfold statement. intro H.
  apply bind_ok in H. destruct H as (k & j & Hk & H).
  apply kind_at_cursor_ok in Hk. destruct Hk as [-> _].
  destruct (kind_eqb k DEF).
  - unfold function_def in H. do 6 read_match H.
    apply bind_ok in H. destruct H as (k' & j & Hk & H).
    apply kind_at_cursor_ok in Hk. destruct Hk as [-> _].
    apply bind_ok in H. destruct H as (body & j & Hb & H).
    inversion H; subst. destruct (kind_eqb k' PRINT).
    + apply print_body_ok in Hb.
      destruct Hb as (consumed & Hskip & -> & Hsig & Hlen).
      collect_tokens.
      split; [simpl; lia|]. split; [|simpl; lia].
      cbn [node_tokens header_tokens]. rewrite map_app. simpl.
      rewrite Hsig. reflexivity.
    + inversion Hb; subst. collect_tokens.
      split; [simpl; lia|]. split; [reflexivity|simpl; lia].
  - destruct (kind_eqb k ID && lparen_follows tokens i); [|discriminate].
    unfold call_statement in H. do 4 read_match H.
    inversion H; subst. collect_tokens.
    split; [simpl; lia|]. split; [reflexivity|exact I].
Qed.

Lemma statement_empty_body tokens i name param j :
  statement tokens i = Ok (Function name param [], j) ->
  j < List.length tokens.
Proof.
  unfold statement. intro H.
  apply bind_ok in H. destruct H as (k & j0 & Hk & H).
  apply kind_at_cursor_ok in Hk. destruct Hk as [-> _].
  destruct (kind_eqb k DEF).
  - unfold function_def in H. do 6 read_match H.
    apply bind_ok in H. destruct H as (k' & j0 & Hk & H).
    apply kind_at_cursor_ok in Hk. destruct Hk as [-> [v Hv]].
    apply bind_ok in H. destruct H as (body & j0 & Hb & H).
    inversion H; subst. destruct (kind_eqb k' PRINT).
    + apply print_body_ok in Hb. destruct Hb as (_ & _ & _ & _ & Hlen).
      discriminate Hlen.
    + inversion Hb; subst. apply nth_error_Some. congruence.
  - destruct (kind_eqb k ID && lparen_follows tokens i); [|discriminate].
    unfold call_statement in H. do 4 read_match H. discriminate H.
Qed.

Lemma parse_loop_sound tokens : forall fuel i acc ast,
  parse_loop tokens fuel i acc = Some (Ok ast) ->
  exists ast',
    ast = (acc ++ ast')%list /\
    map significant (skipn i tokens) = map significant (program_tokens ast') /\
    Forall body_ok ast' /\ ends_closed ast'.
Proof.
  induction fuel as [|fuel IH]; intros i acc ast H; [discriminate|].
  simpl in H. destruct (i <? List.length tokens)%nat eqn:Ei.
  - destruct (statement tokens i) as [[n i']|e] eqn:Es; [|discriminate].
    pose proof Es as Es'. apply statement_ok in Es.
    destruct Es as (consumed & Hskip & _ & Hsig & Hbody).
    destruct (IH _ _ _ H) as (ast' & -> & Hrest & Hall & Hend).
    exists (n :: ast'). unfold list_append. rewrite <- app_assoc.
    split; [reflexivity|]. split; [|split; [constructor; assumption|]].
    + rewrite Hskip. cbn [program_tokens flat_map].
      rewrite !map_app, Hsig. f_equal. exact Hrest.
    + destruct ast' as [|a ast']; [|exact Hend].
      unfold ends_closed. simpl.
      destruct n as [name param [|s body]|name arg]; try exact I.
      apply statement_empty_body in Es'.
      simpl in Hrest. apply map_eq_nil in Hrest.
      assert (Hl : List.length (skipn i' tokens) = 0) by (rewrite Hrest; reflexivity).
      rewrite length_skipn in Hl. lia.
  - inversion H; subst. exists []. rewrite app_nil_r.
    apply Nat.ltb_ge in Ei. rewrite (skipn_all2 tokens Ei).
    repeat split. constructor.
Qed.

(** What a successful parse says of the tokens and the nodes. *)
Lemma parse_tokens_ok_inv tokens ast :
  parse_tokens tokens = Some (Ok ast) ->
  map significant tokens = map significant (program_tokens ast) /\
  Forall body_ok ast /\ ends_closed ast.
Proof.
  intro H. apply parse_loop_sound in H.
  destruct H as (ast' & -> & Hsig & Hall). simpl in *. auto.
Qed.

(** X8: when the parser succeeds, the tokens are, kind by kind and in
    order, the tokens that spell the nodes it returns, with the same
    identifier and string texts; every function it returns has at most
    one statement in its body, and the last node is not a function with
    an empty body. *)
Theorem parse_tokens_sound tokens ast :
  parse_tokens tokens = Some (Ok ast) ->
  map significant tokens = map significant (program_tokens ast) /\
  Forall body_ok ast /\ ends_closed ast.
Proof. apply parse_tokens_ok_inv. Qed.

Lemma parse_tokens_sound_witness :
  map significant tokens1 = map significant (program_tokens ast1) /\
  Forall body_ok ast1 /\ ends_closed ast1.
Proof. apply (parse_tokens_sound tokens1 ast1). vm_compute. reflexivity. Defined.

Lemma fixed_text_significant t t' :
  fixed_text t -> fixed_text t' -> significant t = significant t' -> t = t'.
Proof.
  destruct t as [k v], t' as [k' v']. simpl. intros H H' E.
  destruct k, k'; simpl in *; inversion E; subst; congruence.
Qed.

Lemma well_formed_fixed_text t : well_formed t -> fixed_text t.
Proof. destruct t as [k v]. destruct k; simpl; auto. Qed.

Lemma program_tokens_fixed_text ast : Forall fixed_text (program_tokens ast).
Proof.
  unfold program_tokens. apply Forall_flat_map, Forall_forall.
  intros n _. destruct n as [name param body|name arg]; simpl.
  - repeat (constructor; [reflexivity || exact I|]).
    apply Forall_flat_map, Forall_forall. intros [l r] _. simpl.
    repeat (constructor; [reflexivity || exact I|]). constructor.
  - repeat (constructor; [reflexivity || exact I|]). constructor.
Qed.

Lemma significant_injective : forall l l',
  Forall fixed_text l -> Forall fixed_text l' ->
  map significant l = map significant l' -> l = l'.
Proof.
  induction l as [|t l IH]; intros [|t' l'] Hl Hl' E; try discriminate.
  - reflexivity.
  - inversion Hl; inversion Hl'; subst. simpl in E. inversion E.
    f_equal; [apply fixed_text_significant; assumption|apply IH; assumption].
Qed.

(** ** Parsing what follows a prefix *)

Lemma nth_error_after {A} (pre l : list A) i :
  nth_error (pre ++ l) (List.length pre + i) = nth_error l i.
Proof.
  rewrite nth_error_app2 by lia. f_equal. lia.
Qed.

Lemma match_shift pre toks expected i :
  match_ (pre ++ toks) expected (List.length pre + i)
  = shift (List.length pre) (match_ toks expected i).
Proof.
  unfold match_. rewrite nth_error_after.
  destruct (nth_error toks i) as [[k v]|]; [|reflexivity].
  destruct (kind_eqb k expected); [|reflexivity].
  simpl. rewrite Nat.add_succ_r. reflexivity.
Qed.

Lemma kind_at_cursor_shift pre toks i :
  kind_at_cursor (pre ++ toks) (List.length pre + i)
  = shift (List.length pre) (kind_at_cursor toks i).
Proof.
  unfold kind_at_cursor. rewrite nth_error_after.
  destruct (nth_error toks i) as [[k v]|]; reflexivity.
Qed.

Lemma bind_shift {A B} n (m1 m2 : parser A) (f1 f2 : A -> parser B) i :
  m1 (n + i) = shift n (m2 i) ->
  (forall a j, f1 a (n + j) = shift n (f2 a j)) ->
  bind m1 f1 (n + i) = shift n (bind m2 f2 i).
Proof.
  intros Hm Hf. unfold bind. rewrite Hm.
  destruct (m2 i) as [[a j]|e]; simpl; [apply Hf|reflexivity].
Qed.

Ltac shift_steps :=
  repeat first
    [ apply bind_shift; [apply match_shift|intros ? ?]
    | apply bind_shift; [apply kind_at_cursor_shift|intros ? ?]
    | reflexivity ].

Lemma print_body_shift pre toks i :
  print_body (pre ++ toks) (List.length pre + i)
  = shift (List.length pre) (print_body toks i).
Proof. unfold print_body. shift_steps. Qed.

Lemma function_def_shift pre toks i :
  function_def (pre ++ toks) (List.length pre + i)
  = shift (List.length pre) (function_def toks i).
Proof.
  unfold function_def. shift_steps.
  apply bind_shift; [|intros ? ?; reflexivity].
  match goal with |- context [if ?b then _ else _] => destruct b end;
    [apply print_body_shift|reflexivity].
Qed.

Lemma call_statement_shift pre toks i :
  call_statement (pre ++ toks) (List.length pre + i)
  = shift (List.length pre) (call_statement toks i).
Proof. unfold call_statement. shift_steps. Qed.

Lemma statement_shift pre toks i :
  statement (pre ++ toks) (List.length pre + i)
  = shift (List.length pre) (statement toks i).
Proof.
  unfold statement.
  apply bind_shift; [apply kind_at_cursor_shift|]. intros k j.
  assert (Hl : lparen_follows (pre ++ toks) (List.length pre + i)
               = lparen_follows toks i).
  { unfold lparen_follows. rewrite <- Nat.add_assoc, nth_error_after. reflexivity. }
  rewrite Hl. destruct (kind_eqb k DEF); [apply function_def_shift|].
  destruct (kind_eqb k ID && lparen_follows toks i);
    [apply call_statement_shift|reflexivity].
Qed.

(** The loop on the tokens after a prefix runs as on these tokens
    alone. *)
Lemma parse_loop_shift pre toks : forall fuel i acc,
  parse_loop (pre ++ toks) fuel (List.length pre + i) acc
  = parse_loop toks fuel i acc.
Proof.
  induction fuel as [|fuel IH]; intros i acc; [reflexivity|]. simpl.
  rewrite length_app, statement_shift.
  replace (List.length pre + i <? List.length pre + List.length toks)%nat
    with (i <? List.length toks)%nat.
  2:{ destruct (Nat.ltb_spec i (List.length toks));
      symmetry; [apply Nat.ltb_lt|apply Nat.ltb_ge]; lia. }
  destruct (i <? List.length toks)%nat; [|reflexivity].
  destruct (statement toks i) as [[n j]|e]; simpl; [apply IH|reflexivity].
Qed.

(** More fuel does not change a result. *)
Lemma parse_loop_more_fuel tokens : forall fuel fuel' i acc r,
  parse_loop tokens fuel i acc = Some r -> fuel <= fuel' ->
  parse_loop tokens fuel' i acc = Some r.
Proof.
  induction fuel as [|fuel IH]; intros fuel' i acc r H Hle; [discriminate|].
  destruct fuel' as [|fuel']; [lia|]. simpl in *.
  destruct (i <? List.length tokens)%nat; [|exact H].
  destruct (statement tokens i) as [[n j]|e]; [|exact H].
  apply (IH fuel'); [exact H|lia].
Qed.

Lemma parse_loop_acc tokens : forall fuel i acc,
  parse_loop tokens fuel i acc
  = option_map (map_result (app acc)) (parse_loop tokens fuel i []).
Proof.
  induction fuel as [|fuel IH]; intros i acc; [reflexivity|]. simpl.
  destruct (i <? List.length tokens)%nat.
  - destruct (statement tokens i) as [[n j]|e]; [|reflexivity].
    rewrite IH, (IH _ (list_append [] n)). unfold list_append.
    destruct (parse_loop tokens fuel j []) as [[a|e]|]; simpl;
      rewrite <- ?app_assoc; reflexivity.
  - simpl. rewrite app_nil_r. reflexivity.
Qed.

(** ** Reading back the tokens of a program *)

Lemma statement_node n rest :
  body_ok n ->
  (forall name param, n = Function name param [] ->
     rest <> [] /\ no_print_head rest) ->
  statement (node_tokens n ++ rest) 0 = Ok (n, List.length (node_tokens n)).
Proof.
  intros Hb Hrest. destruct n as [name param [|[l r] [|s body]]|name arg].
  - destruct (Hrest _ _ eq_refl) as [Hne Hhead].
    destruct rest as [|[k v] rest]; [congruence|].
    apply (empty_body_before_token name param k v rest).
    intros ->. exact Hhead.
  - reflexivity.
  - simpl in Hb. lia.
  - reflexivity.
Qed.

Lemma node_tokens_length n : 4 <= List.length (node_tokens n).
Proof.
  destruct n as [name param body|name arg]; simpl; lia.
Qed.

Lemma program_tokens_length ast :
  4 * List.length ast <= List.length (program_tokens ast).
Proof.
  induction ast as [|n ast IH]; simpl; [lia|].
  rewrite length_app. pose proof (node_tokens_length n). lia.
Qed.

Lemma program_tokens_head n ast tail :
  (program_tokens (n :: ast) ++ tail)%list <> [] /\
  no_print_head (program_tokens (n :: ast) ++ tail).
Proof.
  destruct n as [name param body|name arg]; simpl; split;
    first [discriminate | exact I].
Qed.

Lemma ends_closed_tail n ast :
  ast <> [] -> ends_closed (n :: ast) -> ends_closed ast.
Proof.
  unfold ends_closed. destruct ast as [|a ast]; [congruence|]. auto.
Qed.

(** The loop reads a program node by node and goes on with what
    follows. *)
Lemma parse_program_then : forall ast tail fuel acc r,
  Forall body_ok ast -> no_print_head tail ->
  ends_closed ast \/ tail <> [] ->
  parse_loop tail fuel 0 (acc ++ ast) = Some r ->
  parse_loop (program_tokens ast ++ tail) (List.length ast + fuel) 0 acc
  = Some r.
Proof.
  induction ast as [|n ast IH]; intros tail fuel acc r Hb Hhead Hend H.
  - rewrite app_nil_r in H. exact H.
  - inversion Hb as [|? ? Hn Hb']; subst.
    cbn [program_tokens flat_map]. rewrite <- app_assoc.
    change (flat_map node_tokens ast) with (program_tokens ast).
    cbn [List.length Nat.add parse_loop].
    assert (Hlt : (0 <? List.length (node_tokens n ++ program_tokens ast ++ tail))%nat
                  = true).
    { apply Nat.ltb_lt. rewrite length_app.
      pose proof (node_tokens_length n). lia. }
    rewrite Hlt, statement_node; [|exact Hn|].
    + pose proof (parse_loop_shift (node_tokens n) (program_tokens ast ++ tail)
                    (List.length ast + fuel) 0 (list_append acc n)) as Hs.
      rewrite Nat.add_0_r in Hs. rewrite Hs.
      apply IH; [exact Hb'|exact Hhead| |].
      * destruct Hend as [Hend|Hend]; [left|right; exact Hend].
        destruct ast as [|a ast]; [exact I|].
        apply (ends_closed_tail n); [discriminate|exact Hend].
      * unfold list_append. rewrite <- app_assoc. exact H.
    + intros name param ->. destruct ast as [|a ast].
      * simpl. destruct Hend as [Hend|Hend]; [contradiction Hend|].
        split; [exact Hend|exact Hhead].
      * apply program_tokens_head.
Qed.

Lemma program_parses_back ast :
  Forall body_ok ast -> ends_closed ast ->
  parse_tokens (program_tokens ast) = Some (Ok ast).
Proof.
  intros Hb Hend. unfold parse_tokens.
  apply (parse_loop_more_fuel _ (List.length ast + 1)).
  - rewrite <- (app_nil_r (program_tokens ast)) at 1.
    apply parse_program_then; auto. exact I.
  - pose proof (program_tokens_length ast). lia.
Qed.

(** X9: on the tokens [tokenize] returns, the parser succeeds with a
    node list exactly when the tokens are those that spell the nodes,
    every body has at most one statement and the last node is not a
    function with an empty body. *)
Theorem parser_reads_exactly_programs code toks ast :
  tokenize code = Ok toks ->
  (parse_tokens toks = Some (Ok ast) <->
   toks = program_tokens ast /\ Forall body_ok ast /\ ends_closed ast).
Proof.
  intro Ht. split.
  - intro Hp. apply parse_tokens_ok_inv in Hp.
    destruct Hp as (Hsig & Hb & Hend). split; [|auto].
    apply significant_injective; [|apply program_tokens_fixed_text|exact Hsig].
    unfold tokenize in Ht. rewrite finditer_matches_from in Ht.
    apply well_formed_from in Ht.
    eapply Forall_impl; [|exact Ht]. apply well_formed_fixed_text.
  - intros (-> & Hb & Hend). apply program_parses_back; assumption.
Qed.

Lemma parser_reads_exactly_programs_witness :
  parse_tokens tokens1 = Some (Ok ast1) <->
  tokens1 = program_tokens ast1 /\ Forall body_ok ast1 /\ ends_closed ast1.
Proof.
  apply (parser_reads_exactly_programs src1 tokens1 ast1). vm_compute. reflexivity.
Defined.

(** X10: the tokens that spell a program parse back to the program,
    when every body has at most one statement and the last node is not a
    function with an empty body. *)
Theorem parse_program_tokens ast :
  Forall body_ok ast -> ends_closed ast ->
  parse_tokens (program_tokens ast) = Some (Ok ast).
Proof. apply program_parses_back. Qed.

Lemma parse_program_tokens_witness :
  parse_tokens (program_tokens ast1) = Some (Ok ast1).
Proof.
  apply (parse_program_tokens ast1); [|exact I].
  repeat constructor.
Defined.

(** X11: a program that ends with a function whose body is empty does
    not parse back: the test for a [print] body reads past the last
    token and the parser raises IndexError. *)
Theorem program_ending_with_empty_body_raises ast name param :
  Forall body_ok ast ->
  parse_tokens (program_tokens (ast ++ [Function name param []]))
  = Some (Raise IndexError).
Proof.
  intro Hb. unfold parse_tokens, program_tokens.
  rewrite flat_map_app. cbn [flat_map node_tokens]. rewrite !app_nil_r.
  apply (parse_loop_more_fuel _ (List.length ast + 1)).
  - apply parse_program_then; [exact Hb|exact I|right; discriminate|reflexivity].
  - rewrite length_app. pose proof (program_tokens_length ast).
    unfold program_tokens in *. simpl. lia.
Qed.

Lemma program_ending_with_empty_body_raises_witness :
  parse_tokens (program_tokens (ast1 ++ [Function "g" "y" []]))
  = Some (Raise IndexError).
Proof.
  apply (program_ending_with_empty_body_raises ast1 "g" "y").
  repeat constructor.
Defined.

(** ** A program followed by more tokens *)

Section Extension.

Variables t1 t2 : list token.

Lemma nth_error_prefix i (x : token) :
  nth_error t1 i = Some x -> nth_error (t1 ++ t2) i = Some x.
Proof.
  intro H. rewrite nth_error_app1; [exact H|].
  apply nth_error_Some. congruence.
Qed.

Lemma extends_match expected :
  extends (match_ t1 expected) (match_ (t1 ++ t2) expected).
Proof.
  intros i v j H. apply match_ok in H. destruct H as [H ->].
  unfold match_. rewrite (nth_error_prefix _ _ H).
  unfold kind_eqb. destruct (kind_eq_dec expected expected); congruence.
Qed.

Lemma extends_kind_at_cursor :
  extends (kind_at_cursor t1) (kind_at_cursor (t1 ++ t2)).
Proof.
  intros i k j H. apply kind_at_cursor_ok in H. destruct H as [-> [v H]].
  unfold kind_at_cursor. rewrite (nth_error_prefix _ _ H). reflexivity.
Qed.

Lemma extends_bind {A B} (m1 m2 : parser A) (f1 f2 : A -> parser B) :
  extends m1 m2 -> (forall a, extends (f1 a) (f2 a)) ->
  extends (bind m1 f1) (bind m2 f2).
Proof.
  intros Hm Hf i b j H. apply bind_ok in H.
  destruct H as (a & i' & H1 & H2).
  unfold bind. rewrite (Hm _ _ _ H1). apply Hf, H2.
Qed.

Lemma extends_refl {A} (m : parser A) : extends m m.
Proof. intros i a j H. exact H. Qed.

Ltac extend_steps :=
  repeat first
    [ apply extends_bind; [apply extends_match|intros ?]
    | apply extends_bind; [apply extends_kind_at_cursor|intros ?]
    | apply extends_refl ].

Lemma extends_print_body : extends (print_body t1) (print_body (t1 ++ t2)).
Proof. unfold print_body. extend_steps. Qed.

Lemma extends_function_def : extends (function_def t1) (function_def (t1 ++ t2)).
Proof.
  unfold function_def. extend_steps.
  apply extends_bind; [|intros ?; apply extends_refl].
  match goal with |- context [if ?b then _ else _] => destruct b end;
    [apply extends_print_body|apply extends_refl].
Qed.

Lemma extends_call_statement :
  extends (call_statement t1) (call_statement (t1 ++ t2)).
Proof. unfold call_statement. extend_steps. Qed.

Lemma lparen_follows_prefix i :
  lparen_follows t1 i = true -> lparen_follows (t1 ++ t2) i = true.
Proof.
  unfold lparen_follows.
  destruct (nth_error t1 (i + 1)) as [[k v]|] eqn:E; [|discriminate].
  rewrite (nth_error_prefix _ _ E). auto.
Qed.

Lemma statement_prefix i n j :
  statement t1 i = Ok (n, j) -> statement (t1 ++ t2) i = Ok (n, j).
Proof.
  unfold statement. apply extends_bind; [apply extends_kind_at_cursor|].
  intro k. destruct (kind_eqb k DEF); [apply extends_function_def|].
  destruct (kind_eqb k ID); simpl; [|apply extends_refl].
  destruct (lparen_follows t1 i) eqn:E.
  - rewrite (lparen_follows_prefix _ E). apply extends_call_statement.
  - intros i' a j' H. discriminate.
Qed.

Lemma statement_within i n j :
  statement t1 i = Ok (n, j) -> i < j <= List.length t1.
Proof.
  intro H. apply statement_ok in H.
  destruct H as (consumed & Hskip & -> & Hsig & _).
  assert (Hlen : List.length (skipn i t1)
                 = List.length consumed + List.length (skipn (i + List.length consumed) t1))
    by (rewrite Hskip at 1; apply length_app).
  rewrite !length_skipn in Hlen.
  assert (4 <= List.length consumed).
  { rewrite <- (length_map significant), Hsig, length_map.
    apply node_tokens_length. }
  lia.
Qed.

Lemma parse_loop_prefix : forall fuel i acc a1 fuel2 r,
  i <= List.length t1 ->
  parse_loop t1 fuel i acc = Some (Ok a1) ->
  parse_loop t2 fuel2 0 a1 = Some r ->
  parse_loop (t1 ++ t2) (fuel + fuel2) i acc = Some r.
Proof.
  induction fuel as [|fuel IH]; intros i acc a1 fuel2 r Hi H1 H2; [discriminate|].
  simpl in H1. destruct (i <? List.length t1)%nat eqn:Ei.
  - destruct (statement t1 i) as [[n j]|e] eqn:Es; [|discriminate].
    cbn [Nat.add parse_loop].
    assert (Hlt : (i <? List.length (t1 ++ t2))%nat = true).
    { apply Nat.ltb_lt in Ei. apply Nat.ltb_lt. rewrite length_app. lia. }
    rewrite Hlt, (statement_prefix _ _ _ Es).
    apply (IH _ _ a1); [apply (statement_within _ _ _ Es)|exact H1|exact H2].
  - inversion H1; subst. apply Nat.ltb_ge in Ei.
    assert (i = List.length t1) by lia. subst i.
    pose proof (parse_loop_shift t1 t2 (S fuel + fuel2) 0 a1) as Hs.
    rewrite Nat.add_0_r in Hs. rewrite Hs.
    apply (parse_loop_more_fuel _ fuel2); [exact H2|lia].
Qed.

End Extension.

Lemma parse_tokens_append t1 t2 a1 :
  parse_tokens t1 = Some (Ok a1) ->
  parse_tokens (t1 ++ t2)
  = option_map (map_result (app a1)) (parse_tokens t2).
Proof.
  intro H1.
  destruct (parse_tokens_total t2) as (r2 & H2). rewrite H2.
  destruct (parse_tokens_total (t1 ++ t2)) as (r & H). rewrite H.
  unfold parse_tokens in *.
  assert (H2' : parse_loop t2 (S (List.length t2)) 0 a1
                = Some (map_result (app a1) r2)).
  { rewrite parse_loop_acc, H2. reflexivity. }
  pose proof (parse_loop_prefix t1 t2 _ 0 [] a1 _ _ (Nat.le_0_l _) H1 H2') as H12.
  apply (parse_loop_more_fuel _ _ (S (List.length t1) + S (List.length t2))) in H;
    [|rewrite length_app; lia].
  simpl. congruence.
Qed.

(** X12: when a token list parses, appending more tokens leaves its
    nodes as they are: the whole parses to these nodes followed by the
    nodes of the added tokens, or fails as the added tokens do. *)
Theorem parse_tokens_app t1 t2 a1 :
  parse_tokens t1 = Some (Ok a1) ->
  parse_tokens (t1 ++ t2)
  = option_map (map_result (app a1)) (parse_tokens t2).
Proof. apply parse_tokens_append. Qed.

Lemma parse_tokens_app_witness :
  parse_tokens (tokens1 ++ tokens4)
  = option_map (map_result (app ast1)) (parse_tokens tokens4).
Proof. apply (parse_tokens_app tokens1 tokens4 ast1). vm_compute. reflexivity. Defined.

(** ** Where IndexError comes from *)

Ltac raise_match H :=
  let Hm := fresh "Hm" in
  apply bind_raise in H; destruct H as [H|(? & ? & Hm & H)];
  [apply match_raise in H; destruct H as [H _]; discriminate H
  |apply match_ok in Hm; destruct Hm as [Hm ->]].

Lemma print_body_no_index_error tokens i :
  print_body tokens i <> Raise IndexError.
Proof.
  unfold print_body. intro H. do 6 raise_match H. discriminate H.
Qed.

Lemma statement_index_error tokens i :
  i < List.length tokens ->
  statement tokens i = Raise IndexError ->
  map fst (skipn i tokens) = header_kinds.
Proof.
  unfold statement. intros Hi H.
  apply bind_raise in H. destruct H as [H|(k & j & Hk & H)].
  { unfold kind_at_cursor in H.
    destruct (nth_error tokens i) as [[k v]|] eqn:E; [discriminate|].
    apply nth_error_None in E. lia. }
  apply kind_at_cursor_ok in Hk. destruct Hk as [-> _].
  destruct (kind_eqb k DEF).
  - unfold function_def in H. do 6 raise_match H.
    apply bind_raise in H. destruct H as [H|(k' & j & Hk & H)].
    + unfold kind_at_cursor in H.
      destruct (nth_error tokens (S (S (S (S (S (S i))))))) as [[k' v]|] eqn:E;
        [discriminate|].
      apply nth_error_None in E.
      repeat match goal with
      | Hm : nth_error tokens ?p = Some ?t |- context [skipn ?p tokens] =>
          rewrite (skipn_nth tokens p t Hm)
      end.
      rewrite (skipn_all2 tokens E). reflexivity.
    + apply kind_at_cursor_ok in Hk. destruct Hk as [-> _].
      apply bind_raise in H. destruct H as [H|(body & j & _ & H)];
        [|discriminate H].
      destruct (kind_eqb k' PRINT); [|discriminate H].
      apply print_body_no_index_error in H. contradiction.
  - destruct (kind_eqb k ID && lparen_follows tokens i); [|discriminate H].
    unfold call_statement in H. do 4 raise_match H. discriminate H.
Qed.

Lemma parse_loop_index_error tokens : forall fuel i acc,
  parse_loop tokens fuel i acc = Some (Raise IndexError) ->
  exists j, map fst (skipn j tokens) = header_kinds.
Proof.
  induction fuel as [|fuel IH]; intros i acc H; [discriminate|].
  simpl in H. destruct (i <? List.length tokens)%nat eqn:Ei; [|discriminate].
  apply Nat.ltb_lt in Ei.
  destruct (statement tokens i) as [[n j]|e] eqn:Es.
  - apply (IH _ _ H).
  - inversion H; subst. exists i. apply statement_index_error; assumption.
Qed.

Lemma header_alone_raises h acc :
  map fst h = header_kinds ->
  parse_loop h 1 0 acc = Some (Raise IndexError).
Proof.
  intro H.
  do 6 (destruct h as [|[? ?] h]; [discriminate|]).
  destruct h; [|discriminate].
  injection H as -> -> -> -> -> ->. reflexivity.
Qed.

(** X13: the parser raises IndexError only on a token list that ends
    with a function header, its colon being the last token; and on
    every token list made of tokens that parse followed by such a header
    it does raise it. *)
Theorem index_error_is_a_header_at_the_end tokens :
  (parse_tokens tokens = Some (Raise IndexError) ->
   exists pre h, tokens = (pre ++ h)%list /\ map fst h = header_kinds) /\
  (forall pre h ast,
     tokens = (pre ++ h)%list -> parse_tokens pre = Some (Ok ast) ->
     map fst h = header_kinds ->
     parse_tokens tokens = Some (Raise IndexError)).
Proof.
  split.
  - intro H. apply parse_loop_index_error in H. destruct H as (j & Hj).
    exists (firstn j tokens), (skipn j tokens).
    rewrite firstn_skipn. auto.
  - intros pre h ast -> Hpre Hh.
    destruct (parse_tokens_total (pre ++ h)) as (r & Hr). rewrite Hr.
    unfold parse_tokens in *.
    pose proof (parse_loop_more_fuel _ _ (S (List.length h)) _ _ _
                  (header_alone_raises h ast Hh) (le_n_S _ _ (Nat.le_0_l _))) as Hh'.
    pose proof (parse_loop_prefix pre h _ 0 [] ast _ _ (Nat.le_0_l _) Hpre Hh') as H.
    apply (parse_loop_more_fuel _ _ (S (List.length pre) + S (List.length h))) in Hr;
      [congruence|rewrite length_app; lia].
Qed.

Lemma index_error_is_a_header_at_the_end_witness :
  parse_tokens (tokens1 ++ header_tokens "g" "y") = Some (Raise IndexError).
Proof.
  apply (proj2 (index_error_is_a_header_at_the_end
                  (tokens1 ++ header_tokens "g" "y"))
           tokens1 (header_tokens "g" "y") ast1);
    vm_compute; reflexivity.
Defined.

(** ** The loop of the parser ends *)

(** X14: the loop of the parser ends on every token list.  A turn that
    returns a node has read exactly the tokens of that node, four at
    least, and leaves the cursor within the list; so a list that parses
    has as many tokens as its nodes spell.  The translation of a text
    always ends with a result or an exception. *)
Theorem parser_terminates tokens :
  (exists r, parse_tokens tokens = Some r) /\
  (forall i n j,
     statement tokens i = Ok (n, j) ->
     j = i + List.length (node_tokens n) /\
     4 <= List.length (node_tokens n) /\ j <= List.length tokens) /\
  (forall ast,
     parse_tokens tokens = Some (Ok ast) ->
     List.length tokens = List.length (program_tokens ast)) /\
  (forall code, exists r, translate_code code = Some r).
Proof.
  split; [apply parse_loop_total; lia|]. split; [|split].
  - intros i n j H. pose proof (statement_within _ _ _ _ H) as Hw.
    apply statement_ok in H. destruct H as (consumed & _ & -> & Hsig & _).
    assert (List.length consumed = List.length (node_tokens n))
      by (rewrite <- (length_map significant), Hsig, length_map; reflexivity).
    pose proof (node_tokens_length n). lia.
  - intros ast H. apply parse_loop_sound in H.
    destruct H as (ast' & -> & Hsig & _). simpl in Hsig.
    rewrite <- (length_map significant), Hsig, length_map. reflexivity.
  - intro code. unfold translate_code.
    destruct (tokenize code) as [toks|e]; [|eauto].
    destruct (parse_loop_total toks (S (List.length toks)) 0 []) as (r & Hr); [lia|].
    unfold parse_tokens. rewrite Hr. destruct r; eauto.
Qed.

Lemma parser_terminates_witness :
  List.length tokens1 = List.length (program_tokens ast1).
Proof.
  apply (proj1 (proj2 (proj2 (parser_terminates tokens1))) ast1).
  vm_compute. reflexivity.
Defined.

(** ** The intermediate code, node by node *)

(** X15: the intermediate code is made node by node, in the order of
    the nodes: a function gives its func line, two lines for each
    statement of its body, all with the temporary t1, and endfunc; a
    call gives one line.  The code of two programs put end to end is the
    code of the first followed by the code of the second. *)
Theorem ir_lines_node_by_node xs ys :
  ir_lines_of xs = flat_map ir_node_lines xs /\
  ir_lines_of (xs ++ ys) = (ir_lines_of xs ++ ir_lines_of ys)%list /\
  generate_ir (xs ++ ys) = join_lines (ir_lines_of xs ++ ir_lines_of ys).
Proof.
  assert (H : forall l, ir_lines_of l = flat_map ir_node_lines l).
  { intro l. unfold ir_lines_of. rewrite fold_ir_node. reflexivity. }
  assert (H' : ir_lines_of (xs ++ ys) = (ir_lines_of xs ++ ir_lines_of ys)%list).
  { rewrite !H. apply flat_map_app. }
  repeat split; auto. unfold generate_ir. rewrite H'. reflexivity.
Qed.

(** ** The entry point of the C++ text *)

Lemma main_open_not_function_line name param body :
  ~ In main_open (cpp_function_lines name param body).
Proof.
  unfold cpp_function_lines. intros [H|H]; [discriminate H|].
  apply in_app_or in H. destruct H as [H|[H|[]]]; [|discriminate H].
  apply in_map_iff in H. destruct H as ([l r] & H & _). discriminate H.
Qed.

Lemma count_main_open_node main_added n :
  count_occ string_dec (cpp_node_lines main_added n) main_open
  = if is_call n && negb main_added then 1 else 0.
Proof.
  destruct n as [name param body|name arg]; simpl is_call; cbn [andb].
  - apply count_occ_not_In, main_open_not_function_line.
  - unfold cpp_node_lines. destruct main_added; simpl;
      repeat match goal with
      | |- context [string_dec ?a ?b] => destruct (string_dec a b)
      end; try reflexivity; try discriminate; congruence.
Qed.

Lemma count_main_open_emitted nodes : forall main_added,
  count_occ string_dec (emitted main_added nodes) main_open
  = if has_call nodes && negb main_added then 1 else 0.
Proof.
  induction nodes as [|n nodes IH]; intro main_added; [reflexivity|].
  cbn [emitted has_call existsb]. rewrite count_occ_app, count_main_open_node, IH.
  fold (has_call nodes).
  destruct (is_call n), main_added, (has_call nodes); reflexivity.
Qed.

(** ** A call statement from text to text *)

Lemma finditer_call_source name body :
  is_identifier name = true -> is_literal_body body = true ->
  finditer (call_source name body) = call_tokens name body.
Proof.
  intros Hname Hbody. rewrite finditer_matches_from. unfold call_source.
  rewrite (matches_from_cons _ _ ID name ("(" ++ _))
    by (apply tok_regex_identifier; [exact Hname|reflexivity]).
  rewrite (matches_from_cons _ _ LPAREN "(" (literal body ++ _))
    by (apply tok_regex_char; simpl; tauto).
  rewrite (matches_from_cons _ _ _ _ _ (tok_regex_literal _ body _ Hbody)).
  rewrite (matches_from_cons _ _ RPAREN ")" "")
    by (apply tok_regex_char; simpl; tauto).
  reflexivity.
Qed.

(** X17: a call of any identifier with a string literal translates,
    whether or not a function of that name is defined: one call node,
    one line of intermediate code, and a C++ text made of the preamble
    and a [main] that holds the call. *)
Theorem call_translates name body :
  is_identifier name = true -> is_literal_body body = true ->
  translate_code (call_source name body)
  = Some (Ok (call_tokens name body,
              [Call name (literal body)],
              "call " ++ name ++ "(" ++ literal body ++ ")",
              join_lines (preamble ++
                          [ main_open;
                            "    " ++ name ++ "(" ++ literal body ++ ");";
                            "    return 0;";
                            "}" ]))).
Proof.
  intros Hname Hbody. unfold translate_code, tokenize.
  rewrite (finditer_call_source _ _ Hname Hbody). reflexivity.
Qed.

Lemma call_translates_witness :
  translate_code (call_source "shout" "hi")
  = Some (Ok (call_tokens "shout" "hi",
              [Call "shout" (literal "hi")],
              "call shout(" ++ literal "hi" ++ ")",
              join_lines (preamble ++
                          [ main_open;
                            "    shout(" ++ literal "hi" ++ ");";
                            "    return 0;";
                            "}" ]))).
Proof. apply (call_translates "shout" "hi"); reflexivity. Defined.

(** ** Unsupported statements *)

Ltac raise_match_unsupported H :=
  let Hm := fresh "Hm" in
  apply bind_raise in H; destruct H as [H|(? & ? & Hm & H)];
  [apply match_raise in H; destruct H as [H _]; discriminate H
  |apply match_ok in Hm; destruct Hm as [Hm ->]].

Lemma print_body_not_unsupported tokens i :
  print_body tokens i <> Raise SyntaxError_unsupported.
Proof.
  unfold print_body. intro H. do 6 raise_match_unsupported H. discriminate H.
Qed.

Lemma statement_unsupported tokens i :
  i < List.length tokens ->
  (statement tokens i = Raise SyntaxError_unsupported <->
   starts_statement tokens i = false).
Proof.
  intro Hi. unfold statement, starts_statement, bind, kind_at_cursor.
  destruct (nth_error tokens i) as [[k v]|] eqn:E.
  2:{ apply nth_error_None in E. lia. }
  destruct (kind_eqb k DEF) eqn:Ek; simpl.
  - split; [|discriminate]. intro H. exfalso.
    unfold function_def in H. do 6 raise_match_unsupported H.
    apply bind_raise in H. destruct H as [H|(k' & j & Hk & H)].
    + unfold kind_at_cursor in H.
      destruct (nth_error tokens (S (S (S (S (S (S i))))))) as [[? ?]|];
        discriminate H.
    + apply bind_raise in H. destruct H as [H|(body & j' & _ & H)];
        [|discriminate H].
      destruct (kind_eqb k' PRINT); [|discriminate H].
      apply print_body_not_unsupported in H. exact H.
  - destruct (kind_eqb k ID && lparen_follows tokens i) eqn:Ec.
    + split; [|discriminate]. intro H. exfalso.
      unfold call_statement in H. do 4 raise_match_unsupported H.
      discriminate H.
    + split; reflexivity.
Qed.

Lemma parse_loop_unsupported tokens : forall fuel i acc,
  parse_loop tokens fuel i acc = Some (Raise SyntaxError_unsupported) ->
  exists j, j < List.length tokens /\ starts_statement tokens j = false.
Proof.
  induction fuel as [|fuel IH]; intros i acc H; [discriminate|].
  simpl in H. destruct (i <? List.length tokens)%nat eqn:Ei; [|discriminate].
  apply Nat.ltb_lt in Ei.
  destruct (statement tokens i) as [[n j]|e] eqn:Es.
  - apply (IH _ _ H).
  - inversion H; subst. exists i. split; [exact Ei|].
    apply statement_unsupported; assumption.
Qed.

(** X18: the error for an unsupported statement comes from the test at
    the head of a statement only: at a cursor within the list a turn of
    the loop raises it exactly when the token there is neither [def]
    nor an identifier followed by an opening parenthesis; and when the
    parser ends with this error such a token stands in the list. *)
Theorem unsupported_statement_is_a_bad_start tokens :
  (forall i, i < List.length tokens ->
     (statement tokens i = Raise SyntaxError_unsupported <->
      starts_statement tokens i = false)) /\
  (parse_tokens tokens = Some (Raise SyntaxError_unsupported) ->
   exists j, j < List.length tokens /\ starts_statement tokens j = false).
Proof.
  split; [intros i Hi; apply statement_unsupported, Hi|].
  apply parse_loop_unsupported.
Qed.

Lemma unsupported_statement_is_a_bad_start_witness :
  exists j, j < List.length [(ID, "greet")] /\
            starts_statement [(ID, "greet")] j = false.
Proof.
  apply (proj2 (unsupported_statement_is_a_bad_start [(ID, "greet")])).
  vm_compute. reflexivity.
Defined.

(** ** One text after another *)

Lemma strip_prefix_line_none p b : forall s,
  all_chars is_word p = true ->
  strip_prefix p s = None -> strip_prefix p (s ++ String newline b) = None.
Proof.
  induction p as [|a p IH]; simpl; intros s Hp H; [discriminate|].
  apply andb_prop in Hp. destruct Hp as [Ha Hp].
  destruct s as [|c s]; simpl.
  - destruct (Ascii.eqb a newline) eqn:E; [|reflexivity].
    apply ascii_eqb_true in E. subst a. discriminate Ha.
  - destruct (Ascii.eqb a c); [apply IH; assumption|reflexivity].
Qed.

Lemma span_before_line f s b :
  f newline = false ->
  span f (s ++ String newline b)
  = (fst (span f s), snd (span f s) ++ String newline b).
Proof.
  intro Hf. destruct (span f s) as [run [|c r]] eqn:Es.
  - rewrite (span_append_all _ _ _ _ Es). simpl. rewrite Hf. simpl.
    rewrite append_nil_r. reflexivity.
  - rewrite (span_append_rest _ _ _ _ _ _ Es). reflexivity.
Qed.

Lemma word_at_before_line r b : word_at (r ++ String newline b) = word_at r.
Proof. destruct r; reflexivity. Qed.

Section Line.

Variables (b : string) (prev : option ascii) (c : ascii) (t : string).

Lemma here_keyword kw :
  all_chars is_word kw = true ->
  stable_here (String newline b) prev c t (p_keyword kw).
Proof.
  intro Hkw. unfold stable_here, p_keyword, boundary.
  change (word_at (String c t ++ String newline b)) with (word_at (String c t)).
  destruct (xorb (word_before prev) (word_at (String c t))); [|reflexivity].
  destruct (strip_prefix kw (String c t)) as [r|] eqn:E.
  - rewrite (strip_prefix_append_some _ _ _ (String newline b) E),
      word_at_before_line.
    destruct (xorb _ (word_at r)); reflexivity.
  - rewrite (strip_prefix_line_none _ _ _ Hkw E). reflexivity.
Qed.

Lemma here_string :
  (c = dquote -> p_string prev (String c t) <> None) ->
  stable_here (String newline b) prev c t p_string.
Proof.
  intro Hc. unfold stable_here. unfold p_string in *. cbn [append].
  destruct (Ascii.eqb c dquote) eqn:Ec; [|reflexivity].
  apply ascii_eqb_true in Ec. specialize (Hc Ec).
  destruct (span (fun x => negb (Ascii.eqb x dquote)) t) as [body [|c' r']] eqn:Es.
  - congruence.
  - rewrite (span_append_rest _ _ (String newline b) _ _ _ Es). reflexivity.
Qed.

Lemma here_plus f :
  f newline = false -> stable_here (String newline b) prev c t (p_plus f).
Proof.
  intro Hf. unfold stable_here, p_plus.
  rewrite (span_before_line f (String c t) b Hf).
  destruct (span f (String c t)) as [[|a run] r]; reflexivity.
Qed.

Lemma here_char f : stable_here (String newline b) prev c t (p_char f).
Proof.
  unfold stable_here, p_char. cbn [append]. destruct (f c); reflexivity.
Qed.

Lemma here_id : stable_here (String newline b) prev c t p_id.
Proof.
  unfold stable_here, p_id. cbn [append].
  destruct (is_id_start c); [|reflexivity].
  rewrite (span_before_line is_word t b) by reflexivity.
  destruct (span is_word t). reflexivity.
Qed.

Lemma here_token_spec :
  (c = dquote -> p_string prev (String c t) <> None) ->
  Forall (fun kp => stable_here (String newline b) prev c t (snd kp)) token_spec.
Proof.
  intro Hc. unfold token_spec.
  repeat (apply Forall_cons; [simpl;
    first [ apply here_keyword; reflexivity | apply here_string; exact Hc
          | apply here_plus; reflexivity | apply here_char
          | apply here_id ] |]).
  apply Forall_nil.
Qed.

Lemma alternation_before_line spec :
  Forall (fun kp => stable_here (String newline b) prev c t (snd kp)) spec ->
  alternation spec prev (String c t ++ String newline b) =
  match alternation spec prev (String c t) with
  | Some (k, v, rest) => Some (k, v, rest ++ String newline b)
  | None => None
  end.
Proof.
  induction spec as [|[k p] spec IH]; intro Hs; [reflexivity|].
  inversion Hs as [|? ? Hp Hs']; subst. cbn [alternation].
  simpl in Hp. unfold stable_here in Hp. rewrite Hp.
  destruct (p prev (String c t)) as [[v rest]|]; [reflexivity|]. simpl.
  apply IH, Hs'.
Qed.

End Line.

(** At a quote the alternation returns a string token or a mismatch. *)
Lemma tok_regex_quote prev t :
  tok_regex prev (String dquote t) =
  match p_string prev (String dquote t) with
  | Some (v, rest) => Some (STRING, v, rest)
  | None => Some (MISMATCH, str1 dquote, t)
  end.
Proof.
  open_alternation. rewrite !p_keyword_none by reflexivity.
  destruct (p_string prev (String dquote t)) as [[v rest]|]; [reflexivity|].
  rewrite !p_plus_none, !p_lit_none, p_id_none by reflexivity.
  reflexivity.
Qed.

Lemma tok_regex_before_line b prev c t k v rest :
  tok_regex prev (String c t) = Some (k, v, rest) -> k <> MISMATCH ->
  tok_regex prev (String c t ++ String newline b)
  = Some (k, v, rest ++ String newline b).
Proof.
  intros E Hk. unfold tok_regex.
  rewrite alternation_before_line.
  - fold tok_regex. rewrite E. reflexivity.
  - apply here_token_spec. intros -> Hnone.
    rewrite tok_regex_quote, Hnone in E. inversion E; subst. congruence.
Qed.

Lemma map_result_app_nil {A} (r : result (list A)) : map_result (app []) r = r.
Proof. destruct r; reflexivity. Qed.

Lemma map_result_cons_app {A} (x : A) l (r : result (list A)) :
  map_result (cons x) (map_result (app l) r) = map_result (app (x :: l)) r.
Proof. destruct r; reflexivity. Qed.

Lemma tokens_before_line b : forall prev s ta,
  tokenize_loop (matches_from prev s) [] = Ok ta ->
  tokenize_loop (matches_from prev (s ++ String newline b)) []
  = map_result (app ta) (tokenize_loop (matches_from (Some newline) b) []).
Proof.
  intros prev s. pattern prev, s. apply scan_ind; clear prev s.
  - intros prev ta H. rewrite matches_from_nil in H. inversion H; subst.
    change ("" ++ String newline b) with (String newline b).
    rewrite (matches_from_cons _ _ _ _ _ (tok_regex_newline_here prev b)).
    rewrite tokenize_loop_cons, map_result_app_nil. reflexivity.
  - intros prev c t k v rest E IH ta H.
    rewrite (matches_from_cons _ _ _ _ _ E), tokenize_loop_cons in H.
    assert (Hk : k <> MISMATCH) by (intros ->; discriminate H).
    rewrite (matches_from_cons _ _ _ _ _ (tok_regex_before_line b _ _ _ _ _ _ E Hk)).
    rewrite tokenize_loop_cons.
    destruct k; try congruence; try (apply IH, H);
      apply map_result_ok in H; destruct H as (ta' & H & ->);
      rewrite (IH _ H), map_result_cons_app; reflexivity.
Qed.

(** The matches do not depend on the character before the text, as long
    as it is, or is not, a word character. *)
Lemma last_char_nonempty s p1 p2 : s <> "" -> last_char s p1 = last_char s p2.
Proof. destruct s as [|c s]; [congruence|]. reflexivity. Qed.

Lemma p_keyword_prev kw p1 p2 s :
  kw <> "" -> word_before p1 = word_before p2 ->
  p_keyword kw p1 s = p_keyword kw p2 s.
Proof.
  intros Hkw Hw. unfold p_keyword, boundary.
  rewrite Hw, (last_char_nonempty kw p1 p2 Hkw). reflexivity.
Qed.

Lemma tok_regex_prev p1 p2 s :
  word_before p1 = word_before p2 -> tok_regex p1 s = tok_regex p2 s.
Proof.
  intro Hw. open_alternation.
  rewrite (p_keyword_prev "def" p1 p2 s), (p_keyword_prev "print" p1 p2 s)
    by (discriminate || exact Hw).
  reflexivity.
Qed.

Lemma matches_from_prev p1 p2 s :
  word_before p1 = word_before p2 -> matches_from p1 s = matches_from p2 s.
Proof.
  intro Hw. destruct s as [|c t]; [reflexivity|].
  destruct (tok_regex_total p1 c t) as (k & v & rest & E1).
  pose proof E1 as E2. rewrite (tok_regex_prev p1 p2 _ Hw) in E2.
  rewrite (matches_from_cons _ _ _ _ _ E1), (matches_from_cons _ _ _ _ _ E2).
  apply tok_regex_sound in E1. destruct E1 as [_ Hv].
  rewrite (last_char_nonempty v p1 p2 Hv). reflexivity.
Qed.

Lemma tokenize_line a b ta :
  tokenize a = Ok ta ->
  tokenize (a ++ nl ++ b) = map_result (app ta) (tokenize b).
Proof.
  unfold tokenize.
  rewrite (finditer_matches_from a), (finditer_matches_from b),
    (finditer_matches_from (a ++ nl ++ b)).
  intro H. change (nl ++ b) with (String newline b).
  rewrite (tokens_before_line b _ _ _ H).
  rewrite (matches_from_prev (Some newline) None b) by reflexivity.
  reflexivity.
Qed.

(** X19: when a text tokenizes, a second text written on the lines after
    it is tokenized on its own: the tokens of the whole are the tokens
    of the first followed by those of the second, and an error of the
    second is the error of the whole. *)
Theorem tokenize_next_line a b ta :
  tokenize a = Ok ta ->
  tokenize (a ++ nl ++ b) = map_result (app ta) (tokenize b).
Proof. apply tokenize_line. Qed.

Lemma tokenize_next_line_witness :
  tokenize (src1 ++ nl ++ src3) = map_result (app tokens1) (tokenize src3).
Proof. apply (tokenize_next_line src1 src3 tokens1). vm_compute. reflexivity. Defined.

(** X20: when a text translates, a second text written on the lines
    after it is translated as a continuation: the tokens and the nodes
    of the whole are those of the first followed by those of the second,
    the two generators run on all the nodes, and an error of the second
    text is the error of the whole. *)
Theorem translate_next_line a b ta na ira cppa :
  translate_code a = Some (Ok (ta, na, ira, cppa)) ->
  translate_code (a ++ nl ++ b) = translated_after ta na (translate_code b).
Proof.
  unfold translate_code. intro H.
  destruct (tokenize a) as [ta'|e] eqn:Ha; [|discriminate].
  destruct (parse_tokens ta') as [[na'|e]|] eqn:Hp; try discriminate.
  inversion H; subst. rewrite (tokenize_line _ b _ Ha).
  destruct (tokenize b) as [tb|e]; [|reflexivity]. simpl.
  rewrite (parse_tokens_append _ tb _ Hp).
  destruct (parse_tokens tb) as [[nb|e]|]; reflexivity.
Qed.

Lemma translate_next_line_witness :
  translate_code (src1 ++ nl ++ src1)
  = translated_after tokens1 ast1 (translate_code src1).
Proof.
  apply (translate_next_line src1 src1 tokens1 ast1 (generate_ir ast1) (generate_cpp ast1)).
  vm_compute. reflexivity.
Defined.

(** ** The text of the lines *)

Lemma join_lines_newline_separated lines :
  join_lines lines = newline_separated lines.
Proof.
  unfold join_lines. induction lines as [|l [|l' rest] IH]; try reflexivity.
  change (String.concat nl (l :: l' :: rest))
    with (l ++ nl ++ String.concat nl (l' :: rest)).
  rewrite IH. reflexivity.
Qed.

Lemma newline_separated_app a b :
  a <> [] ->
  newline_separated (a ++ b) = newline_separated a ++ continued_by b.
Proof.
  intro Ha. induction a as [|l [|l' a] IH]; [congruence| |].
  - destruct b as [|x b]; simpl; [rewrite append_nil_r|]; reflexivity.
  - change (newline_separated ((l :: l' :: a) ++ b))
      with (l ++ nl ++ newline_separated ((l' :: a) ++ b)).
    rewrite IH by discriminate.
    change (newline_separated (l :: l' :: a))
      with (l ++ nl ++ newline_separated (l' :: a)).
    rewrite !append_assoc. reflexivity.
Qed.

(** ** Order of the C++ lines *)

(** C7: the C++ text follows the order of the nodes.  However a node
    sequence is split in two, the lines of the first part come before the
    lines of the second, after the preamble, and the two lines that end
    [main] come last, when there is a call; the text [generate_cpp]
    returns is these lines separated by newlines, and it begins with the
    text of the preamble and of the first part.  In particular, for a
    call that precedes a function definition, the opening of [main]
    (when this is the first call) and the call line come before the
    lines of that function, and the lines ending [main] after all the
    rest. *)
Theorem target_lines_follow_node_order :
  (forall xs ys,
     cpp_lines_of (xs ++ ys) =
     (preamble ++ emitted false xs ++ emitted (has_call xs) ys
        ++ (if has_call (xs ++ ys) then main_close else []))%list) /\
  (forall pre name arg mid fname param body post,
     cpp_lines_of (pre ++ Call name arg :: mid
                       ++ Function fname param body :: post) =
     (preamble ++ emitted false pre
        ++ (if has_call pre then [] else [main_open])
        ++ [cpp_call_line name arg]
        ++ emitted true mid
        ++ cpp_function_lines fname param body
        ++ emitted true post
        ++ main_close)%list) /\
  (forall xs ys,
     generate_cpp (xs ++ ys) =
     newline_separated
       (preamble ++ emitted false xs ++ emitted (has_call xs) ys
          ++ (if has_call (xs ++ ys) then main_close else []))) /\
  (forall xs ys,
     generate_cpp (xs ++ ys) =
     newline_separated (preamble ++ emitted false xs)
     ++ continued_by (emitted (has_call xs) ys
                        ++ (if has_call (xs ++ ys) then main_close else []))) /\
  (forall pre name arg mid fname param body post,
     generate_cpp (pre ++ Call name arg :: mid
                       ++ Function fname param body :: post) =
     newline_separated
       (preamble ++ emitted false pre
          ++ (if has_call pre then [] else [main_open])
          ++ [cpp_call_line name arg]
          ++ emitted true mid
          ++ cpp_function_lines fname param body
          ++ emitted true post
          ++ main_close)).
Proof.
  assert (H1 : forall xs ys,
     cpp_lines_of (xs ++ ys) =
     (preamble ++ emitted false xs ++ emitted (has_call xs) ys
        ++ (if has_call (xs ++ ys) then main_close else []))%list).
  { intros xs ys. rewrite cpp_lines_of_emitted, emitted_app. simpl orb.
    rewrite <- !app_assoc. reflexivity. }
  assert (H2 : forall pre name arg mid fname param body post,
     cpp_lines_of (pre ++ Call name arg :: mid
                       ++ Function fname param body :: post) =
     (preamble ++ emitted false pre
        ++ (if has_call pre then [] else [main_open])
        ++ [cpp_call_line name arg]
        ++ emitted true mid
        ++ cpp_function_lines fname param body
        ++ emitted true post
        ++ main_close)%list).
  { intros pre name arg mid fname param body post.
    rewrite cpp_lines_of_emitted.
    assert (Hc : has_call (pre ++ Call name arg :: mid
                              ++ Function fname param body :: post) = true).
    { unfold has_call. rewrite existsb_app. simpl. apply orb_true_r. }
    rewrite Hc, emitted_app. simpl orb.
    cbn [emitted cpp_node_lines is_call].
    rewrite orb_true_r, emitted_app.
    cbn [emitted cpp_node_lines is_call orb].
    rewrite <- !app_assoc. reflexivity. }
  split; [exact H1|]. split; [exact H2|]. split; [|split].
  - intros xs ys. unfold generate_cpp.
    rewrite join_lines_newline_separated, H1. reflexivity.
  - intros xs ys. unfold generate_cpp.
    rewrite join_lines_newline_separated, H1, app_assoc.
    apply newline_separated_app. discriminate.
  - intros. unfold generate_cpp.
    rewrite join_lines_newline_separated, H2. reflexivity.
Qed.

(** ** Discarded characters between tokens *)

Lemma span_none f s : starts_with f s = false -> span f s = ("", s).
Proof.
  destruct s as [|c s]; [reflexivity|]. simpl. intros ->. reflexivity.
Qed.

Lemma discarded_not_word c : is_discarded c = true -> is_word c = false.
Proof.
  unfold is_discarded, is_blank. intro H.
  repeat (apply orb_prop in H; destruct H as [H|H]);
    apply ascii_eqb_true in H; subst c; reflexivity.
Qed.

Lemma not_discarded_not_blank s :
  starts_with is_discarded s = false -> starts_with is_blank s = false.
Proof.
  destruct s as [|c s]; [reflexivity|]. simpl. unfold is_discarded.
  intro H. apply orb_false_elim in H. tauto.
Qed.

(** The matches over a run of discarded characters add no token, and the
    scan stands after the run. *)
Lemma skip_gap : forall n w prev s,
  String.length w <= n ->
  all_chars is_discarded w = true -> starts_with is_discarded s = false ->
  tokenize_loop (matches_from prev (w ++ s)) []
  = tokenize_loop (matches_from (last_char w prev) s) [].
Proof.
  induction n as [|n IH]; intros w prev s Hn Hw Hs.
  - destruct w; [reflexivity|simpl in Hn; lia].
  - destruct w as [|c w]; [reflexivity|].
    simpl in Hw. apply andb_prop in Hw. destruct Hw as [Hc Hw].
    simpl in Hn. unfold is_discarded in Hc. apply orb_prop in Hc.
    destruct Hc as [Hc|Hc].
    + destruct (span is_blank (String c w)) as [run rest] eqn:Es.
      pose proof (span_append _ _ _ _ Es) as Hsplit.
      pose proof (span_all _ _ _ _ Es) as Hrun.
      pose proof (span_stop _ _ _ _ Es) as Hstop.
      assert (Hne : run <> "").
      { simpl in Es. rewrite Hc in Es. destruct (span is_blank w).
        inversion Es. discriminate. }
      assert (Hrest : all_chars is_discarded rest = true).
      { assert (H : all_chars is_discarded (String c w) = true).
        { simpl. unfold is_discarded at 1. rewrite Hc, Hw. reflexivity. }
        rewrite Hsplit, all_chars_append in H.
        apply andb_prop in H. tauto. }
      assert (Hlen : String.length rest <= n).
      { assert (H : String.length (String c w) = String.length (run ++ rest))
          by congruence.
        rewrite length_append in H. simpl in H.
        destruct run; [congruence|simpl in H; lia]. }
      rewrite Hsplit, append_assoc.
      rewrite (matches_from_cons _ _ SKIP run (rest ++ s)).
      * rewrite tokenize_loop_cons, (IH _ _ _ Hlen Hrest Hs), last_char_append.
        reflexivity.
      * apply tok_regex_blank_run; [exact Hrun|exact Hne|].
        destruct rest as [|c' rest']; [apply not_discarded_not_blank, Hs|exact Hstop].
    + apply ascii_eqb_true in Hc. subst c.
      change (String newline w ++ s) with (String newline (w ++ s)).
      rewrite (matches_from_cons _ _ _ _ _ (tok_regex_newline_here prev (w ++ s))).
      rewrite tokenize_loop_cons.
      rewrite (IH w _ s) by (lia || assumption). reflexivity.
Qed.

Lemma skip_gap_here w prev s :
  all_chars is_discarded w = true -> starts_with is_discarded s = false ->
  tokenize_loop (matches_from prev (w ++ s)) []
  = tokenize_loop (matches_from (last_char w prev) s) [].
Proof. apply (skip_gap (String.length w)). apply le_n. Qed.

Lemma token_step prev s k v rest :
  tok_regex prev s = Some (k, v, rest) -> is_token_kind k = true ->
  tokenize_loop (matches_from prev s) []
  = map_result (cons (k, v))
      (tokenize_loop (matches_from (last_char v prev) rest) []).
Proof.
  intros E Hk. rewrite (matches_from_cons _ _ _ _ _ E), tokenize_loop_cons.
  destruct k; try discriminate Hk; reflexivity.
Qed.

(** After a gap no word character stands before the position. *)
Lemma gap_not_word w prev :
  all_chars is_discarded w = true -> word_before prev = false ->
  word_before (last_char w prev) = false.
Proof.
  intros Hw Hprev. destruct w as [|c w]; [exact Hprev|].
  destruct (last_char_all _ (String c w) prev Hw) as (x & -> & Hx); [discriminate|].
  simpl. apply discarded_not_word, Hx.
Qed.

Lemma word_at_gap w s :
  all_chars is_discarded w = true -> word_at s = false ->
  word_at (w ++ s) = false.
Proof.
  intros Hw Hs. destruct w as [|c w]; [exact Hs|].
  simpl in *. apply andb_prop in Hw. apply discarded_not_word. tauto.
Qed.

Lemma word_at_after_gap w s :
  all_chars is_discarded w = true -> w <> "" -> word_at (w ++ s) = false.
Proof.
  intros Hw Hne. destruct w as [|c w]; [congruence|].
  simpl in *. apply andb_prop in Hw. apply discarded_not_word. tauto.
Qed.

Lemma identifier_not_discarded x rest :
  is_identifier x = true -> starts_with is_discarded (x ++ rest) = false.
Proof.
  intro Hx. destruct (identifier_inv x Hx) as (c & t & -> & Hc & _).
  simpl. destruct (id_start_facts c Hc) as (_ & _ & Hb & Hp).
  simpl existsb in Hp. bool_hyps. unfold is_discarded.
  rewrite Hb. simpl. assumption.
Qed.

Lemma literal_not_discarded body rest :
  starts_with is_discarded (literal body ++ rest) = false.
Proof. reflexivity. Qed.

(** ** A function definition in any layout *)

Section Layout.

Variable gap : nat -> string.
Variables name param body ref : string.
Hypothesis gaps : forall i, all_chars is_discarded (gap i) = true.
Hypothesis gap_after_def : gap 1 <> "".
Hypothesis Hname : is_identifier name = true.
Hypothesis Hparam : is_identifier param = true.
Hypothesis Href : is_identifier ref = true.
Hypothesis Hbody : is_literal_body body = true.

Ltac skip i :=
  rewrite (skip_gap_here (gap i))
    by first [ apply gaps | reflexivity
             | apply identifier_not_discarded; assumption ].

Ltac word_side :=
  first [ assumption | reflexivity | simpl; tauto
        | apply word_at_after_gap; [apply gaps|exact gap_after_def]
        | apply word_at_gap; [apply gaps|reflexivity]
        | apply gap_not_word; [apply gaps|reflexivity] ].

Lemma function_text_tokens rest :
  tokenize (function_text gap name param body ref ++ rest)
  = map_result (app (function_tokens name param body ref)) (tokenize rest).
Proof.
  unfold tokenize.
  rewrite (finditer_matches_from (function_text gap name param body ref ++ rest)),
    (finditer_matches_from rest).
  unfold function_text. rewrite !append_assoc.
  skip 0.
  erewrite (token_step _ _ DEF "def" (gap 1 ++ _));
    [|apply (tok_regex_keyword DEF "def"); word_side|reflexivity].
  skip 1.
  erewrite (token_step _ _ ID name (gap 2 ++ _));
    [|apply tok_regex_identifier; word_side|reflexivity].
  skip 2.
  erewrite (token_step _ _ LPAREN "(" (gap 3 ++ _));
    [|apply tok_regex_char; word_side|reflexivity].
  skip 3.
  erewrite (token_step _ _ ID param (gap 4 ++ _));
    [|apply tok_regex_identifier; word_side|reflexivity].
  skip 4.
  erewrite (token_step _ _ RPAREN ")" (gap 5 ++ _));
    [|apply tok_regex_char; word_side|reflexivity].
  skip 5.
  erewrite (token_step _ _ COLON ":" (gap 6 ++ _));
    [|apply tok_regex_char; word_side|reflexivity].
  skip 6.
  erewrite (token_step _ _ PRINT "print" (gap 7 ++ _));
    [|apply (tok_regex_keyword PRINT "print"); word_side|reflexivity].
  skip 7.
  erewrite (token_step _ _ LPAREN "(" (gap 8 ++ _));
    [|apply tok_regex_char; word_side|reflexivity].
  skip 8.
  erewrite (token_step _ _ STRING (literal body) (gap 9 ++ _));
    [|apply tok_regex_literal; word_side|reflexivity].
  skip 9.
  erewrite (token_step _ _ PLUS "+" (gap 10 ++ _));
    [|apply tok_regex_char; word_side|reflexivity].
  skip 10.
  erewrite (token_step _ _ ID ref (gap 11 ++ _));
    [|apply tok_regex_identifier; word_side|reflexivity].
  skip 11.
  erewrite (token_step _ _ RPAREN ")" rest);
    [|apply tok_regex_char; word_side|reflexivity].
  rewrite (matches_from_prev _ None rest) by reflexivity.
  destruct (tokenize_loop (matches_from None rest) []); reflexivity.
Qed.

End Layout.

(** ** Declared parameter and referenced identifier *)

Lemma map_result_app_app {A} (l1 l2 : list A) (r : result (list A)) :
  map_result (app l1) (map_result (app l2) r) = map_result (app (l1 ++ l2)) r.
Proof. destruct r; simpl; rewrite ?app_assoc; reflexivity. Qed.

(** C8: for a function definition whose print statement refers to any
    identifier, the declared parameter or another one, written in any
    layout, alone, before any text or on the lines after a text that
    tokenizes, the tokenizer returns the twelve tokens of the definition
    and the parser makes of them, alone or between other statements, the
    function with its print statement; no step compares the two
    identifiers.  Both generators write the names as they stand: the
    header carries the declared parameter, the temporary assignment and
    the output statement carry the identifier of the body, in the text
    of the definition alone and among the lines of a larger program. *)
Theorem parameter_and_reference_unchecked gap name param body ref :
  (forall i, all_chars is_discarded (gap i) = true) -> gap 1 <> "" ->
  is_identifier name = true -> is_identifier param = true ->
  is_identifier ref = true -> is_literal_body body = true ->
  let text := function_text gap name param body ref in
  let tokens := function_tokens name param body ref in
  let ast := [Function name param [Print (literal body) ref]] in
  let ir_lines :=
    [ "func " ++ name ++ "(" ++ param ++ ")";
      "t1 = " ++ literal body ++ " + " ++ ref;
      "print t1";
      "endfunc" ] in
  let cpp_lines :=
    [ "void " ++ name ++ "(string " ++ param ++ ") {";
      "    cout << " ++ literal body ++ " + " ++ ref ++ " << endl;";
      "}" ] in
  tokenize text = Ok tokens /\
  (forall rest,
     tokenize (text ++ rest) = map_result (app tokens) (tokenize rest)) /\
  (forall before tb rest,
     tokenize before = Ok tb ->
     tokenize (before ++ nl ++ text ++ rest)
     = map_result (app (tb ++ tokens)) (tokenize rest)) /\
  parse_tokens tokens = Some (Ok ast) /\
  (forall before nb after,
     parse_tokens before = Some (Ok nb) ->
     parse_tokens (before ++ tokens ++ after)
     = option_map (map_result (app (nb ++ ast))) (parse_tokens after)) /\
  generate_ir ast =
    ("func " ++ name ++ "(" ++ param ++ ")") ++ nl
    ++ ("t1 = " ++ literal body ++ " + " ++ ref) ++ nl
    ++ "print t1" ++ nl ++ "endfunc" /\
  generate_cpp ast =
    "#include <iostream>" ++ nl ++ "#include <string>" ++ nl
    ++ "using namespace std;" ++ nl ++ "" ++ nl
    ++ ("void " ++ name ++ "(string " ++ param ++ ") {") ++ nl
    ++ ("    cout << " ++ literal body ++ " + " ++ ref ++ " << endl;") ++ nl
    ++ "}" /\
  (forall nb na,
     generate_ir (nb ++ ast ++ na)
     = newline_separated (ir_lines_of nb ++ ir_lines ++ ir_lines_of na)) /\
  (forall nb na,
     generate_cpp (nb ++ ast ++ na)
     = newline_separated
         (preamble ++ emitted false nb ++ cpp_lines
            ++ emitted (has_call nb) na
            ++ (if has_call (nb ++ ast ++ na) then main_close else []))) /\
  translate_code text
  = Some (Ok (tokens, ast, generate_ir ast, generate_cpp ast)).
Proof.
  intros Hgap Hgap1 Hname Hparam Href Hbody text tokens ast ir_lines cpp_lines.
  assert (Hrest : forall rest,
            tokenize (text ++ rest) = map_result (app tokens) (tokenize rest)).
  { intro rest. apply function_text_tokens; assumption. }
  assert (Htext : tokenize text = Ok tokens).
  { rewrite <- (append_nil_r text), Hrest. reflexivity. }
  assert (Hparse : parse_tokens tokens = Some (Ok ast)) by reflexivity.
  split; [exact Htext|]. split; [exact Hrest|].
  split; [|split; [exact Hparse|split; [|split; [|split; [|split; [|split]]]]]].
  - intros before tb rest Hb.
    rewrite (tokenize_line before (text ++ rest) tb Hb), Hrest.
    apply map_result_app_app.
  - intros before nb after Hb.
    rewrite (parse_tokens_append before (tokens ++ after) nb Hb).
    rewrite (parse_tokens_append tokens after ast Hparse).
    destruct (parse_tokens after) as [[na|e]|]; simpl;
      rewrite <- ?app_assoc; reflexivity.
  - reflexivity.
  - reflexivity.
  - intros nb na. unfold generate_ir.
    rewrite join_lines_newline_separated, !ir_lines_of_flat_map, !flat_map_app.
    reflexivity.
  - intros nb na. unfold generate_cpp.
    rewrite join_lines_newline_separated, cpp_lines_of_emitted, emitted_app.
    cbn [app emitted cpp_node_lines is_call orb ast].
    rewrite orb_false_r, <- !app_assoc. reflexivity.
  - unfold translate_code. rewrite Htext, Hparse. reflexivity.
Qed.

Lemma parameter_and_reference_unchecked_witness :
  "x" <> "y" /\
  function_text tight_gaps "f" "x" "a" "y"
  = "def f(x):print(" ++ q ++ "a" ++ q ++ "+y)" /\
  function_text reference_gaps "f" "x" "a" "y" = function_source "f" "x" "a" "y" /\
  tokenize (function_text tight_gaps "f" "x" "a" "y")
  = Ok (function_tokens "f" "x" "a" "y") /\
  tokenize (function_text reference_gaps "f" "x" "a" "y")
  = Ok (function_tokens "f" "x" "a" "y").
Proof.
  split; [discriminate|]. split; [reflexivity|]. split; [reflexivity|]. split.
  - apply (parameter_and_reference_unchecked tight_gaps "f" "x" "a" "y");
      try reflexivity; [intros [|[|i]]; reflexivity|discriminate].
  - apply (parameter_and_reference_unchecked reference_gaps "f" "x" "a" "y");
      try reflexivity; [|discriminate].
    intro i. do 11 (destruct i as [|i]; [reflexivity|]). reflexivity.
Defined.

(** ** The entry point in the text *)

(** X16: the C++ text starts with the preamble; the line that opens
    [main] occurs once when the program has a call, however many calls
    there are, and not at all otherwise; and when there is a call the
    text ends with the return line and the closing brace.  The text
    [generate_cpp] returns is these lines separated by newlines. *)
Theorem main_is_opened_once nodes :
  firstn 4 (cpp_lines_of nodes) = preamble /\
  count_occ string_dec (cpp_lines_of nodes) main_open
  = (if has_call nodes then 1 else 0) /\
  generate_cpp nodes = newline_separated (cpp_lines_of nodes) /\
  (has_call nodes = true ->
   exists lines,
     cpp_lines_of nodes = (preamble ++ lines ++ main_close)%list /\
     generate_cpp nodes = newline_separated (preamble ++ lines ++ main_close)).
Proof.
  assert (Hg : generate_cpp nodes = newline_separated (cpp_lines_of nodes))
    by apply join_lines_newline_separated.
  rewrite Hg, cpp_lines_of_emitted. split; [reflexivity|]. split; [|split].
  - rewrite !count_occ_app, count_main_open_emitted.
    destruct (has_call nodes); reflexivity.
  - reflexivity.
  - intros ->. eauto.
Qed.

Lemma main_is_opened_once_witness :
  exists lines,
    cpp_lines_of [Call "f" (literal "a"); Call "g" (literal "b")]
    = (preamble ++ lines ++ main_close)%list /\
    generate_cpp [Call "f" (literal "a"); Call "g" (literal "b")]
    = newline_separated (preamble ++ lines ++ main_close).
Proof.
  apply (proj2 (proj2 (proj2 (main_is_opened_once
                         [Call "f" (literal "a"); Call "g" (literal "b")])))).
  reflexivity.
Defined.
